(** * Automaton: the DFA evaluation engine (computeDFA)

    A shallow embedding of the engine that normalises a drawn transition
    graph ([preProcess]), checks determinism ([isUniqueEdges], [isValidDFA])
    and simulates an input string ([computeDFA]), together with the
    properties the specification states about it.

    Modelling conventions.
    - A JS string is a [string]; a character is one 8-bit code unit.
    - A node or edge item is an immutable record: the engine never assigns
      to a field of an item it has read, it only builds new edge objects.
    - JS arrays and the backing storage of vis-data [DataSet] objects live
      in a store indexed by locations, so that aliasing between the
      caller's collections and the working arrays can be expressed.
    - [randomUUID()] draws from a generator [uuid : nat -> string]; the
      store carries the index of the next draw.
    - The scan loop of [preProcess] takes fuel; every other loop has a
      constant bound and is a structural recursion. *)

From Stdlib Require Import Ascii String.
From stdpp Require Import base option list gmap strings pretty.

(** ** Graph model (the NODE and EDGE data models of the source header) *)

Record node := Node {
  node_id : string;
  node_label : string;       (* [label: string] of the NODE data model *)
  node_final : option bool   (* optional field: [None] when absent *)
}.

Record edge := Edge {
  edge_id : string;
  edge_from : string;
  edge_to : string;
  edge_label : string
}.

(** [interface dfaResponse]: the two optional fields are [None] when the
    key is absent from the object. *)
Record dfaResponse := DfaResponse {
  valid : bool;
  accepted : option bool;
  acceptedNodeLabel : option string
}.

#[global] Instance node_eq_dec : EqDecision node.
Proof. solve_decision. Defined.
#[global] Instance edge_eq_dec : EqDecision edge.
Proof. solve_decision. Defined.
#[global] Instance dfaResponse_eq_dec : EqDecision dfaResponse.
Proof. solve_decision. Defined.

(** JS truthiness of [node.final]. *)
Definition truthy (final : option bool) : bool :=
  match final with
  | Some true => true
  | _ => false
  end.

(** ** Values handed to [computeDFA] *)

Definition loc := positive.

(** What [data.nodes] / [data.edges] can be: the key may be missing, it may
    hold something that is not a [DataSet], or it holds a [DataSet] whose
    items are stored at a location. *)
Inductive member :=
  | absent
  | not_a_DataSet
  | DataSet (items : loc).

(** The [data] argument ([data: any] for the shape check): a primitive
    (on which the [in] operator itself raises), or an object. *)
Inductive automataData :=
  | primitive
  | object (nodes edges : member).

(** ** Store, exceptions, and the evaluation monad *)

Record world := World {
  node_store : gmap loc (list node);
  edge_store : gmap loc (list edge);
  uuid_next : nat
}.

(** Every exception the engine can raise is a JS [TypeError]; the
    constructors record where it is raised. *)
Inductive TypeError :=
  | only_accepts_Dataset    (* throw new TypeError("function only accepts Dataset") *)
  | in_on_primitive         (* ["nodes" in data] with [data] not an object *)
  | property_of_undefined.  (* [edge.label] with [edge] undefined *)

Inductive outcome (A : Type) :=
  | Return (a : A)
  | Throw (e : TypeError)
  | OutOfFuel.
Arguments Return {A} a.
Arguments Throw {A} e.
Arguments OutOfFuel {A}.

Definition comp (A : Type) : Type := world -> outcome A * world.

#[global] Instance comp_ret : MRet comp := fun A a w => (Return a, w).
#[global] Instance comp_bind : MBind comp := fun A B k m w =>
  match m w with
  | (Return a, w') => k a w'
  | (Throw e, w') => (Throw e, w')
  | (OutOfFuel, w') => (OutOfFuel, w')
  end.

Definition throw {A} (e : TypeError) : comp A := fun w => (Throw e, w).
Definition lift {A} (o : outcome A) : comp A := fun w => (o, w).
Definition out_of_fuel {A} : comp A := fun w => (OutOfFuel, w).

(** Contents of an array (or of a [DataSet]) at a location. *)
Definition nodes_at (w : world) (l : loc) : list node :=
  default [] (node_store w !! l).
Definition edges_at (w : world) (l : loc) : list edge :=
  default [] (edge_store w !! l).

Definition write_edges (l : loc) (items : list edge) (w : world) : world :=
  World (node_store w) (<[l := items]> (edge_store w)) (uuid_next w).
Definition write_nodes (l : loc) (items : list node) (w : world) : world :=
  World (<[l := items]> (node_store w)) (edge_store w) (uuid_next w).

(** ** Library calls used by the engine *)

Section Engine.

(** The identifier generator behind [randomUUID]: [uuid k] is the k-th
    identifier it delivers. *)
Variable uuid : nat -> string.

Definition randomUUID : comp string := fun w =>
  (Return (uuid (uuid_next w)),
   World (node_store w) (edge_store w) (S (uuid_next w))).

(** [DataSet.get()] of vis-data: a new array holding the items. *)
Definition DataSet_get_nodes (d : loc) : comp loc := fun w =>
  let a := fresh (dom (node_store w)) in
  (Return a, write_nodes a (nodes_at w d) w).
Definition DataSet_get_edges (d : loc) : comp loc := fun w =>
  let a := fresh (dom (edge_store w)) in
  (Return a, write_edges a (edges_at w d) w).

(** [edges.length], [edges[i]], [edges.push(e)], [edges.splice(i, 1)]. *)
Definition array_length (a : loc) : comp nat := fun w =>
  (Return (length (edges_at w a)), w).
Definition array_index (a : loc) (i : nat) : comp (option edge) := fun w =>
  (Return (edges_at w a !! i), w).
Definition array_push (a : loc) (e : edge) : comp unit := fun w =>
  (Return tt, write_edges a (edges_at w a ++ [e]) w).
Definition array_splice1 (a : loc) (i : nat) : comp unit := fun w =>
  (Return tt, write_edges a (delete i (edges_at w a)) w).

(** Reading a whole array, for the phases that only read. *)
Definition read_nodes (a : loc) : comp (list node) := fun w =>
  (Return (nodes_at w a), w).
Definition read_edges (a : loc) : comp (list edge) := fun w =>
  (Return (edges_at w a), w).

(** [s.split(",")]. *)
Fixpoint split_comma (s : string) : list string :=
  match s with
  | EmptyString => [EmptyString]
  | String c rest =>
      if Ascii.eqb c "," then EmptyString :: split_comma rest
      else match split_comma rest with
           | piece :: pieces => String c piece :: pieces
           | [] => [String c EmptyString]
           end
  end.

(** White space and line terminators of ECMAScript that fit in one 8-bit
    code unit: TAB, LF, VT, FF, CR, SP, NBSP. *)
Definition is_white_space (c : ascii) : bool :=
  let n := nat_of_ascii c in
  ((9 <=? n) && (n <=? 13)) || (n =? 32) || (n =? 160).

Fixpoint trim_start (s : string) : string :=
  match s with
  | EmptyString => EmptyString
  | String c rest => if is_white_space c then trim_start rest else s
  end.

Fixpoint trim_end (s : string) : string :=
  match s with
  | EmptyString => EmptyString
  | String c rest =>
      match trim_end rest with
      | EmptyString => if is_white_space c then EmptyString else String c EmptyString
      | kept => String c kept
      end
  end.

(** [s.trim()]. *)
Definition trim (s : string) : string := trim_end (trim_start s).

(** ** isAutomataData (source lines 41-48) *)

Definition has_key (m : member) : bool :=
  match m with
  | absent => false
  | _ => true
  end.

Definition instanceof_DataSet (m : member) : bool :=
  match m with
  | DataSet _ => true
  | _ => false
  end.

Definition isAutomataData (data : automataData) : outcome bool :=
  match data with
  | primitive => Throw in_on_primitive
  | object nodes edges =>
      if has_key nodes && has_key edges then
        if instanceof_DataSet nodes && instanceof_DataSet edges
        then Return true
        else Return false
      else Return false
  end.

(** ** preProcess (source lines 72-132) *)

(** The innermost loop (lines 104-125) over the characters of one trimmed
    sub-label; [remaining] is [edgeLabel] from [edgeLabelIndex] on, so
    [edgeLabelIndex + 1 === edgeLabel.length] holds when one character is
    left. *)
Fixpoint preProcess_chars (edges : loc) (edgeTo previousTo remaining : string)
  : comp unit :=
  match remaining with
  | EmptyString => mret tt
  | String ch rest =>
      newId ← randomUUID;
      target ← match rest with
               | EmptyString => mret edgeTo
               | _ => randomUUID
               end;
      array_push edges (Edge newId previousTo target (String ch EmptyString));;
      preProcess_chars edges edgeTo target rest
  end.

(** The loop over the sub-labels (lines 93-126). *)
Fixpoint preProcess_labels (edges : loc) (e : edge) (edgeTo : string)
    (edgeLabelArray : list string) : comp unit :=
  match edgeLabelArray with
  | [] => mret tt
  | piece :: pieces =>
      let edgeLabel := trim piece in
      preProcess_chars edges edgeTo (edge_from e) edgeLabel;;
      preProcess_labels edges e edgeTo pieces
  end.

(** The test of line 89. *)
Definition needs_expansion (e : edge) : bool :=
  let edgeLabelArray := split_comma (edge_label e) in
  (1 <? length edgeLabelArray) ||
  (1 <? String.length (hd EmptyString edgeLabelArray)).

(** The branch of lines 90-127: expand, then drop the original. *)
Definition expand (edges : loc) (edgeIndex : nat) (e : edge) : comp unit :=
  preProcess_labels edges e (edge_to e) (split_comma (edge_label e));;
  array_splice1 edges edgeIndex.

(** The scan loop (line 74); one unit of fuel per iteration. *)
Fixpoint preProcess_scan (fuel : nat) (edges : loc) (edgesLength edgeIndex : nat)
  : comp unit :=
  if edgeIndex <? edgesLength then
    match fuel with
    | O => out_of_fuel
    | S fuel' =>
        slot ← array_index edges edgeIndex;
        match slot with
        | None => throw property_of_undefined
        | Some e =>
            if needs_expansion e then
              expand edges edgeIndex e;;
              preProcess_scan fuel' edges edgesLength edgeIndex
            else
              preProcess_scan fuel' edges edgesLength (edgeIndex + 1)
        end
    end
  else mret tt.

Definition preProcess (fuel : nat) (nodes edges : loc) : comp unit :=
  edgesLength ← array_length edges;
  preProcess_scan fuel edges edgesLength 0.

(** ** isUniqueEdges (source lines 140-156), isValidDFA (lines 165-171) *)

(** The test of line 150. *)
Definition same_from_label (e searchEdge : edge) : bool :=
  String.eqb (edge_from e) (edge_from searchEdge) &&
  String.eqb (edge_label e) (edge_label searchEdge).

(** The outer loop takes the edges in order; the inner loop compares the
    current one with every later one. *)
Fixpoint isUniqueEdges (edges : list edge) : bool :=
  match edges with
  | [] => true
  | e :: later =>
      if existsb (same_from_label e) later then false
      else isUniqueEdges later
  end.

Definition isValidDFA (nodes : list node) (edges : list edge) : bool :=
  isUniqueEdges edges.

(** ** generateResponse (source lines 188-211) *)

Definition generateResponse (valid : bool) (accepted : option bool)
    (acceptedNodeLabel : option string) : dfaResponse :=
  match accepted, acceptedNodeLabel with
  | None, None => DfaResponse valid None None
  | _, None => DfaResponse valid accepted None
  | _, Some _ => DfaResponse valid accepted acceptedNodeLabel
  end.

(** ** computeDFA (source lines 229-282) *)

(** The test of line 259; [inputChar] is a one-character string. *)
Definition leaves_on (currentNode : string) (inputChar : ascii) (e : edge) : bool :=
  String.eqb (edge_from e) currentNode &&
  String.eqb (edge_label e) (String inputChar EmptyString).

(** The traversal loop (lines 250-268). [None] is the early
    [return generateResponse(isValid, false)] of line 266; [Some q] is the
    value of [currentNode] when the loop ends. *)
Fixpoint traverse (edges : list edge) (currentNode : string) (input : string)
  : option string :=
  match input with
  | EmptyString => Some currentNode
  | String inputChar rest =>
      match find (leaves_on currentNode inputChar) edges with
      | Some e => traverse edges (edge_to e) rest
      | None => None
      end
  end.

(** The test of line 275. *)
Definition accepts_at (currentNode : string) (n : node) : bool :=
  String.eqb (node_id n) currentNode && truthy (node_final n).

Definition DataSet_of (m : member) : option loc :=
  match m with
  | DataSet items => Some items
  | _ => None
  end.

Definition the_nodes (data : automataData) : member :=
  match data with
  | primitive => absent
  | object nodes _ => nodes
  end.

Definition the_edges (data : automataData) : member :=
  match data with
  | primitive => absent
  | object _ edges => edges
  end.

Definition computeDFA (fuel : nat) (inputString : string) (data : automataData)
  : comp dfaResponse :=
  shaped ← lift (isAutomataData data);
  if (shaped : bool) then
    match DataSet_of (the_nodes data), DataSet_of (the_edges data) with
    | Some dataNodes, Some dataEdges =>
        nodes ← DataSet_get_nodes dataNodes;
        edges ← DataSet_get_edges dataEdges;
        preProcess fuel nodes edges;;
        ns ← read_nodes nodes;
        es ← read_edges edges;
        let isValid := isValidDFA ns es in
        if negb isValid then mret (generateResponse isValid None None)
        else
          match traverse es "1" inputString with
          | None => mret (generateResponse isValid (Some false) None)
          | Some currentNode =>
              match find (accepts_at currentNode) ns with
              | Some n =>
                  mret (generateResponse isValid (Some true) (Some (node_label n)))
              | None => mret (generateResponse isValid (Some false) None)
              end
          end
    | _, _ => throw only_accepts_Dataset   (* behind the check: not reached *)
    end
  else throw only_accepts_Dataset.

End Engine.

(** * Vocabulary of the specification *)

(** ** Labels *)

(** "Every comma-separated sub-label is non-empty after trimming." *)
Definition sub_labels_nonempty (e : edge) : bool :=
  forallb (fun piece => negb (String.eqb (trim piece) EmptyString))
          (split_comma (edge_label e)).

Fixpoint comma_free (s : string) : Prop :=
  match s with
  | EmptyString => True
  | String c rest => c ≠ ","%char ∧ comma_free rest
  end.

(** An edge the scan leaves alone, with a label of one character. *)
Definition settled (e : edge) : Prop :=
  needs_expansion e = false ∧ String.length (edge_label e) = 1.

(** ** Chains *)

(** [ch] routes the characters of [s] from the source of [e] to its
    destination, one edge per character, consecutive edges sharing their
    link point. *)
Definition is_chain (e : edge) (s : string) (ch : list edge) : Prop :=
  length ch = String.length s ∧
  (∀ k x, ch !! k = Some x →
     ∃ c, String.get k s = Some c ∧ edge_label x = String c EmptyString) ∧
  edge_from <$> head ch = Some (edge_from e) ∧
  edge_to <$> last ch = Some (edge_to e) ∧
  (∀ k x y, ch !! k = Some x → ch !! S k = Some y → edge_to x = edge_from y).

(** The link points of a chain: the sources of all its edges but the first. *)
Definition intermediates (ch : list edge) : list string :=
  edge_from <$> tail ch.

Section Chains.

Variable uuid : nat -> string.

(** What [preProcess_chars] appends when the generator stands at draw [k]. *)
Fixpoint chain (k : nat) (previousTo edgeTo s : string) : list edge :=
  match s with
  | EmptyString => []
  | String ch rest =>
      match rest with
      | EmptyString => [Edge (uuid k) previousTo edgeTo (String ch EmptyString)]
      | _ => Edge (uuid k) previousTo (uuid (S k)) (String ch EmptyString)
               :: chain (S (S k)) (uuid (S k)) edgeTo rest
      end
  end.

(** Number of identifiers drawn for a sub-label, and the draws that
    become link points. *)
Definition draws (s : string) : nat :=
  match s with
  | EmptyString => 0
  | String _ rest => S (2 * String.length rest)
  end.

Fixpoint link_draws (k : nat) (s : string) : list nat :=
  match s with
  | EmptyString => []
  | String _ rest =>
      match rest with
      | EmptyString => []
      | _ => S k :: link_draws (S (S k)) rest
      end
  end.

(** What [preProcess_labels] appends: one chain per sub-label. *)
Fixpoint chains (k : nat) (e : edge) (pieces : list string) : list (list edge) :=
  match pieces with
  | [] => []
  | piece :: later =>
      chain k (edge_from e) (edge_to e) (trim piece)
        :: chains (k + draws (trim piece)) e later
  end.

Fixpoint all_draws (pieces : list string) : nat :=
  match pieces with
  | [] => 0
  | piece :: later => draws (trim piece) + all_draws later
  end.

Fixpoint all_link_draws (k : nat) (pieces : list string) : list nat :=
  match pieces with
  | [] => []
  | piece :: later =>
      link_draws k (trim piece) ++ all_link_draws (k + draws (trim piece)) later
  end.

End Chains.

(** ** Effects on the store *)

(** [w'] differs from [w] at most in the edge array at [a]. *)
Definition same_but (a : loc) (w w' : world) : Prop :=
  node_store w' = node_store w ∧
  ∀ l, l ≠ a → edge_store w' !! l = edge_store w !! l.

(** Invariant of the scan: the first [i] slots are settled, then come the
    [R] original edges still to be scanned, then the appended edges [N]. *)
Definition scan_inv (n i : nat) (arr : list edge) (R N : list edge) : Prop :=
  drop i arr = R ++ N ∧
  Forall settled (take i arr) ∧
  Forall (λ e, sub_labels_nonempty e = true) R ∧
  Forall settled N ∧
  i + length R ≤ n ∧ n ≤ length arr.

(** ** Walks, and the normalised graph *)

(** [walk es q input q']: consuming [input] from [q] along transitions of
    [es], one character per transition, ends in [q']. *)
Inductive walk (es : list edge) : string → string → string → Prop :=
  | walk_nil q : walk es q EmptyString q
  | walk_cons q c rest e q' :
      e ∈ es →
      edge_from e = q →
      edge_label e = String c EmptyString →
      walk es (edge_to e) rest q' →
      walk es q (String c rest) q'.

(** Two transitions at different positions with the same source and label. *)
Definition clash (es : list edge) : Prop :=
  ∃ i j e1 e2, i ≠ j ∧ es !! i = Some e1 ∧ es !! j = Some e2 ∧
    edge_from e1 = edge_from e2 ∧ edge_label e1 = edge_label e2.

(** [n] is the first node of [ns] with id [q] and a truthy final flag. *)
Definition first_final (ns : list node) (q : string) (n : node) : Prop :=
  ∃ i, ns !! i = Some n ∧ node_id n = q ∧ truthy (node_final n) = true ∧
    ∀ j m, j < i → ns !! j = Some m →
      ¬ (node_id m = q ∧ truthy (node_final m) = true).

Definition no_final (ns : list node) (q : string) : Prop :=
  ∀ n, n ∈ ns → ¬ (node_id n = q ∧ truthy (node_final n) = true).

(** The state and transition collections [computeDFA] works on once
    [preProcess] has returned, for a graph that passes the shape check. *)
Definition normalized (uuid : nat → string) (fuel : nat) (data : automataData)
    (w : world) : option (list node * list edge) :=
  match DataSet_of (the_nodes data), DataSet_of (the_edges data) with
  | Some dataNodes, Some dataEdges =>
      match (nodes ← DataSet_get_nodes dataNodes;
             edges ← DataSet_get_edges dataEdges;
             preProcess uuid fuel nodes edges;;
             ns ← read_nodes nodes;
             es ← read_edges edges;
             mret (ns, es)) w with
      | (Return p, _) => Some p
      | _ => None
      end
  | _, _ => None
  end.

(** The caller's collections: the items of [data.nodes] and [data.edges]. *)
Definition graph_nodes (w : world) (data : automataData) : list node :=
  match DataSet_of (the_nodes data) with
  | Some dataNodes => nodes_at w dataNodes
  | None => []
  end.

Definition graph_edges (w : world) (data : automataData) : list edge :=
  match DataSet_of (the_edges data) with
  | Some dataEdges => edges_at w dataEdges
  | None => []
  end.

(** "The value exposes both members." *)
Definition exposes_both (data : automataData) : bool :=
  has_key (the_nodes data) && has_key (the_edges data).

(** The errors the shape check of [computeDFA] raises. *)
Definition raised_by_shape_check (e : TypeError) : bool :=
  match e with
  | only_accepts_Dataset | in_on_primitive => true
  | property_of_undefined => false
  end.

(** ** The normal form of the edge array *)

(** What the validator compares: source and label. *)
Definition edge_key (e : edge) : string * string := (edge_from e, edge_label e).

(** What the traversal reads of a transition. *)
Definition edge_arc (e : edge) : string * string * string :=
  (edge_from e, edge_label e, edge_to e).

(** The transitions the scan leaves in place. *)
Definition kept (es : list edge) : list edge :=
  List.filter (λ e, negb (needs_expansion e)) es.

Section NormalForm.

Variable uuid : nat → string.

(** The transitions the scan appends, in the order it appends them, when
    the generator stands at draw [k] and the originals are [es]. *)
Fixpoint expansions (k : nat) (es : list edge) : list edge :=
  match es with
  | [] => []
  | e :: later =>
      if needs_expansion e then
        concat (chains uuid k e (split_comma (edge_label e)))
          ++ expansions (k + all_draws (split_comma (edge_label e))) later
      else expansions k later
  end.

End NormalForm.

(** The number of identifiers drawn while normalising [es]. *)
Fixpoint expansion_draws (es : list edge) : nat :=
  match es with
  | [] => 0
  | e :: later =>
      if needs_expansion e
      then all_draws (split_comma (edge_label e)) + expansion_draws later
      else expansion_draws later
  end.

(** The number of characters in the trimmed sub-labels of a label, and
    the number of transitions appended while normalising [es]. *)
Fixpoint pieces_size (pieces : list string) : nat :=
  match pieces with
  | [] => 0
  | piece :: later => String.length (trim piece) + pieces_size later
  end.

Fixpoint expansion_size (es : list edge) : nat :=
  match es with
  | [] => 0
  | e :: later =>
      if needs_expansion e
      then pieces_size (split_comma (edge_label e)) + expansion_size later
      else expansion_size later
  end.

(** The verdict read off a state collection and a normalised transition
    collection (lines 241-279 of the source). *)
Definition verdict (ns : list node) (es : list edge) (input : string) : dfaResponse :=
  if negb (isValidDFA ns es) then generateResponse false None None
  else match traverse es "1" input with
       | None => generateResponse true (Some false) None
       | Some currentNode =>
           match find (accepts_at currentNode) ns with
           | Some n => generateResponse true (Some true) (Some (node_label n))
           | None => generateResponse true (Some false) None
           end
       end.

(** The first character of a string, if any. *)
Definition first_char (s : string) : option ascii := String.get 0 s.

(** ** A concrete generator and graph, for the examples *)

Definition demo_uuid (k : nat) : string := String.append "uuid-" (pretty k).

Definition demo_world : world :=
  World {[ 1%positive := [Node "1" "start" None; Node "2" "end" (Some true)] ]}
        {[ 1%positive := [Edge "e1" "1" "2" "ab, c"] ]} 0.

Definition demo_data : automataData :=
  object (DataSet 1%positive) (DataSet 1%positive).

Definition demo_edge : edge := Edge "e1" "1" "2" "ab, c".

Definition demo_nodes : list node :=
  [Node "1" "start" None; Node "2" "end" (Some true)].

(** The transitions of [demo_world] once normalised. *)
Definition demo_edges : list edge :=
  [Edge "uuid-0" "1" "uuid-1" "a";
   Edge "uuid-2" "uuid-1" "2" "b";
   Edge "uuid-3" "1" "2" "c"].

(** One state, the same transition drawn twice. *)
Definition twice_nodes : list node := [Node "1" "start" None].
Definition twice_edges : list edge :=
  [Edge "e1" "1" "1" "a"; Edge "e2" "1" "1" "a"].
Definition twice_world : world :=
  World {[ 1%positive := twice_nodes ]} {[ 1%positive := twice_edges ]} 0.

(** One final state with a self-loop. *)
Definition loop_nodes : list node := [Node "1" "start" (Some true)].
Definition loop_edges : list edge := [Edge "e1" "1" "1" "a"].
Definition loop_world : world :=
  World {[ 1%positive := loop_nodes ]} {[ 1%positive := loop_edges ]} 0.

(** A transition labelled with a lone comma. *)
Definition comma_world : world :=
  World {[ 1%positive := demo_nodes ]}
        {[ 1%positive := [Edge "e1" "1" "2" ","] ]} 0.

(** A lone comma beside a two-character label. *)
Definition comma_ab_world : world :=
  World {[ 1%positive := demo_nodes ]}
        {[ 1%positive := [Edge "e1" "1" "2" ","; Edge "e2" "1" "2" "ab"] ]} 0.

(** The same sub-label twice. *)
Definition aa_edge : edge := Edge "e1" "1" "2" "a,a".
Definition aa_world : world :=
  World {[ 1%positive := demo_nodes ]} {[ 1%positive := [aa_edge] ]} 0.

(** The graph of [demo_world] stored elsewhere, its transition under
    another id. *)
Definition moved_world : world :=
  World {[ 3%positive := demo_nodes ]}
        {[ 5%positive := [Edge "other" "1" "2" "ab, c"] ]} 0.
Definition moved_data : automataData :=
  object (DataSet 3%positive) (DataSet 5%positive).

(** An object that has both keys, neither holding a [DataSet]. *)
Definition plain_object : automataData := object not_a_DataSet not_a_DataSet.

(** * Properties *)

(** ** The determinism validator *)

Lemma same_from_label_spec e s :
  same_from_label e s = true ↔
  edge_from e = edge_from s ∧ edge_label e = edge_label s.
Proof.
  unfold same_from_label.
  rewrite andb_true_iff, !String.eqb_eq. tauto.
Qed.

Lemma clash_cons e later :
  clash (e :: later) ↔
  (∃ x, x ∈ later ∧ edge_from e = edge_from x ∧ edge_label e = edge_label x)
  ∨ clash later.
Proof.
  split.
  - intros (i & j & e1 & e2 & Hij & Hi & Hj & Hf & Hl).
    destruct i as [|i], j as [|j]; simpl in *; simplify_eq.
    + left. exists e2. split; [by eapply list_elem_of_lookup_2|done].
    + left. exists e1. split; [by eapply list_elem_of_lookup_2|done].
    + right. exists i, j, e1, e2. repeat split; try done. congruence.
  - intros [(x & Hx & Hf & Hl)|(i & j & e1 & e2 & Hij & Hi & Hj & Hf & Hl)].
    + apply list_elem_of_lookup_1 in Hx as [j Hj].
      exists 0, (S j), e, x. repeat split; done.
    + exists (S i), (S j), e1, e2. repeat split; try done. congruence.
Qed.

Lemma existsb_same_from_label e later :
  existsb (same_from_label e) later = true ↔
  ∃ x, x ∈ later ∧ edge_from e = edge_from x ∧ edge_label e = edge_label x.
Proof.
  rewrite existsb_exists. split.
  - intros (x & Hx & Hs). exists x. rewrite list_elem_of_In.
    by apply same_from_label_spec in Hs.
  - intros (x & Hx & Hs). exists x. rewrite <- list_elem_of_In.
    by apply same_from_label_spec in Hs.
Qed.

Lemma isUniqueEdges_no_clash es : isUniqueEdges es = true ↔ ¬ clash es.
Proof.
  induction es as [|e later IH]; simpl.
  - split; [|done]. intros _ (i & j & e1 & e2 & _ & Hi & _). by destruct i.
  - rewrite clash_cons. destruct (existsb _ later) eqn:Hex.
    + apply existsb_same_from_label in Hex. split; [done|tauto].
    + rewrite IH. split; [|tauto].
      intros Hno [Hx|Hc]; [|done].
      apply existsb_same_from_label in Hx. congruence.
Qed.

Lemma isUniqueEdges_clash es : isUniqueEdges es = false ↔ clash es.
Proof.
  destruct (isUniqueEdges es) eqn:H.
  - apply isUniqueEdges_no_clash in H. split; [done|tauto].
  - split; [|done]. intros _.
    induction es as [|e later IH]; simpl in H; [done|].
    apply clash_cons. destruct (existsb _ later) eqn:Hex.
    + left. by apply existsb_same_from_label.
    + right. by apply IH.
Qed.

Lemma isUniqueEdges_sources_labels es es' :
  (λ e, (edge_from e, edge_label e)) <$> es
    = (λ e, (edge_from e, edge_label e)) <$> es' →
  isUniqueEdges es = isUniqueEdges es'.
Proof.
  revert es'. induction es as [|e later IH]; intros [|e' later'] H;
    simpl in *; try done.
  injection H as Hf Hl Hrest.
  rewrite (IH later' Hrest).
  assert (existsb (same_from_label e) later
          = existsb (same_from_label e') later') as ->; [|done].
  clear IH. revert later' Hrest.
  induction later as [|x xs IHx]; intros [|y ys] Hrest; simpl in *; try done.
  injection Hrest as Hxf Hxl Hxs.
  rewrite (IHx ys Hxs). unfold same_from_label. by rewrite Hf, Hl, Hxf, Hxl.
Qed.

(** C4. [isValidDFA] is [isUniqueEdges], which returns true exactly when
    no two transitions at different positions of the collection share
    both source and label. Destinations play no part: the verdict is a
    function of the (source, label) pairs alone, so self-loops and edges
    into visited states are allowed; and nothing asks for a transition on
    every symbol: the empty collection and a lone self-loop are valid. *)
Theorem isValidDFA_iff_no_shared_source_and_label :
  (∀ ns es, isValidDFA ns es = isUniqueEdges es) ∧
  (∀ es, isUniqueEdges es = true ↔
     ∀ i j e1 e2, i ≠ j → es !! i = Some e1 → es !! j = Some e2 →
       ¬ (edge_from e1 = edge_from e2 ∧ edge_label e1 = edge_label e2)) ∧
  (∀ es es',
     (λ e, (edge_from e, edge_label e)) <$> es
       = (λ e, (edge_from e, edge_label e)) <$> es' →
     isUniqueEdges es = isUniqueEdges es') ∧
  (∀ i q c, isUniqueEdges [Edge i q q c] = true) ∧
  isUniqueEdges [] = true.
Proof.
  split; [done|]. split; [|split; [apply isUniqueEdges_sources_labels|done]].
  intros es. rewrite isUniqueEdges_no_clash. unfold clash. split.
  - intros Hno i j e1 e2 Hij Hi Hj [Hf Hl]. apply Hno.
    by exists i, j, e1, e2.
  - intros H (i & j & e1 & e2 & Hij & Hi & Hj & Hf & Hl). by eapply H.
Qed.

(** ** The traversal *)

Lemma leaves_on_spec q c e :
  leaves_on q c e = true ↔
  edge_from e = q ∧ edge_label e = String c EmptyString.
Proof.
  unfold leaves_on. rewrite andb_true_iff, !String.eqb_eq. tauto.
Qed.

Lemma find_leaves_on_unique es q c e :
  isUniqueEdges es = true →
  e ∈ es → edge_from e = q → edge_label e = String c EmptyString →
  find (leaves_on q c) es = Some e.
Proof.
  intros Huniq He Hf Hl.
  destruct (find (leaves_on q c) es) as [e0|] eqn:Hfind.
  - apply find_some in Hfind as [Hin Hon].
    apply leaves_on_spec in Hon as [Hf0 Hl0].
    apply list_elem_of_In, list_elem_of_lookup_1 in Hin as [i0 Hi0].
    apply list_elem_of_lookup_1 in He as [i Hi].
    destruct (decide (i0 = i)) as [->|Hne]; [congruence|].
    apply isUniqueEdges_no_clash in Huniq. destruct Huniq.
    exists i0, i, e0, e. repeat split; congruence.
  - apply list_elem_of_In in He.
    pose proof (find_none _ _ Hfind e He) as Hno.
    assert (leaves_on q c e = true) by by apply leaves_on_spec.
    congruence.
Qed.

Lemma find_leaves_on_none es q c :
  (∀ e, e ∈ es →
     ¬ (edge_from e = q ∧ edge_label e = String c EmptyString)) →
  find (leaves_on q c) es = None.
Proof.
  intros Hno. destruct (find _ es) as [e0|] eqn:Hfind; [|done].
  apply find_some in Hfind as [Hin Hon].
  apply leaves_on_spec in Hon. apply list_elem_of_In in Hin.
  by destruct (Hno e0 Hin).
Qed.

Lemma walk_traverse es q input q' :
  isUniqueEdges es = true →
  walk es q input q' → traverse es q input = Some q'.
Proof.
  intros Huniq Hwalk. induction Hwalk as [|q c rest e q' He Hf Hl _ IH]; [done|].
  simpl. by rewrite (find_leaves_on_unique es q c e).
Qed.

Lemma traverse_walk es q input q' :
  traverse es q input = Some q' → walk es q input q'.
Proof.
  revert q. induction input as [|c rest IH]; intros q; simpl.
  - intros [= ->]. constructor.
  - destruct (find _ es) as [e|] eqn:Hfind; [|done].
    intros Hrest. apply find_some in Hfind as [Hin Hon].
    apply leaves_on_spec in Hon as [Hf Hl].
    apply (walk_cons es q c rest e q'); auto. by apply list_elem_of_In.
Qed.

Lemma traverse_dead_end es q prefix q1 c suffix :
  isUniqueEdges es = true →
  walk es q prefix q1 →
  (∀ e, e ∈ es →
     ¬ (edge_from e = q1 ∧ edge_label e = String c EmptyString)) →
  traverse es q (String.append prefix (String c suffix)) = None.
Proof.
  intros Huniq Hwalk Hno.
  induction Hwalk as [|q a rest e q' He Hf Hl _ IH]; simpl.
  - by rewrite find_leaves_on_none.
  - rewrite (find_leaves_on_unique es q a e) by done. by apply IH.
Qed.

Lemma accepts_at_spec q n :
  accepts_at q n = true ↔ node_id n = q ∧ truthy (node_final n) = true.
Proof.
  unfold accepts_at. rewrite andb_true_iff, String.eqb_eq. tauto.
Qed.

Lemma find_first_final ns q n :
  first_final ns q n → find (accepts_at q) ns = Some n.
Proof.
  intros (i & Hi & Hid & Hfin & Hfirst).
  revert i Hi Hfirst. induction ns as [|m ms IH]; intros i Hi Hfirst.
  - by destruct i.
  - destruct i as [|i]; simpl in *.
    + simplify_eq. assert (accepts_at (node_id n) n = true) as ->; [|done].
      by apply accepts_at_spec.
    + destruct (accepts_at q m) eqn:Hm.
      * apply accepts_at_spec in Hm. destruct (Hfirst 0 m); [lia|done|done].
      * apply (IH i Hi). intros j m' Hj Hm'. apply (Hfirst (S j) m'); [lia|done].
Qed.

Lemma find_no_final ns q : no_final ns q → find (accepts_at q) ns = None.
Proof.
  intros Hno. destruct (find _ ns) as [n|] eqn:Hfind; [|done].
  apply find_some in Hfind as [Hin Hon].
  apply accepts_at_spec in Hon. apply list_elem_of_In in Hin.
  by destruct (Hno n Hin).
Qed.

Lemma find_accepting_first ns q n :
  find (accepts_at q) ns = Some n → first_final ns q n.
Proof.
  induction ns as [|m ms IH]; [done|]. simpl.
  destruct (accepts_at q m) eqn:Hm.
  - intros [= ->]. apply accepts_at_spec in Hm as [Hid Hfin].
    exists 0. repeat split; try done. intros j ? Hj. lia.
  - intros Hfind. destruct (IH Hfind) as (i & Hi & Hid & Hfin & Hfirst).
    exists (S i). repeat split; try done.
    intros [|j] m' Hj Hm'; simpl in *.
    + simplify_eq. rewrite <- accepts_at_spec. congruence.
    + apply (Hfirst j m'); [lia|done].
Qed.

(** ** computeDFA behind the shape check *)

Lemma isAutomataData_true data :
  isAutomataData data = Return true ↔
  ∃ dataNodes dataEdges, data = object (DataSet dataNodes) (DataSet dataEdges).
Proof.
  split.
  - destruct data as [|[| |dn] [| |de]]; simpl; try done. eauto.
  - by intros (dn & de & ->).
Qed.

Section Verdicts.

Variable uuid : nat → string.

Lemma computeDFA_normalized fuel input data w ns es :
  isAutomataData data = Return true →
  normalized uuid fuel data w = Some (ns, es) →
  fst (computeDFA uuid fuel input data w) =
  Return
    (if negb (isValidDFA ns es) then generateResponse false None None
     else match traverse es "1" input with
          | None => generateResponse true (Some false) None
          | Some currentNode =>
              match find (accepts_at currentNode) ns with
              | Some n => generateResponse true (Some true) (Some (node_label n))
              | None => generateResponse true (Some false) None
              end
          end).
Proof.
  intros Hshape Hnorm. unfold computeDFA.
  apply isAutomataData_true in Hshape as (dn & de & ->).
  unfold normalized in Hnorm. simpl in *.
  unfold mbind, comp_bind, mret, comp_ret in *. simpl in *.
  destruct (preProcess uuid fuel _ _ _) as [[[]|e|] w2]; simpl in *; try done.
  injection Hnorm as <- <-.
  destruct (isValidDFA _ _) eqn:Hvalid; simpl; [|done].
  destruct (traverse _ _ _) as [q|]; [|done].
  by destruct (find _ _).
Qed.

End Verdicts.

(** ** Labels: split and trim *)

Lemma split_comma_nonempty s : split_comma s ≠ [].
Proof.
  destruct s as [|c rest]; simpl; [done|].
  destruct (Ascii.eqb c ","); [done|]. by destruct (split_comma rest).
Qed.

Lemma split_comma_comma_free s : Forall comma_free (split_comma s).
Proof.
  induction s as [|c rest IH]; simpl.
  - by repeat constructor.
  - destruct (Ascii.eqb c ",") eqn:Hc.
    + by constructor.
    + apply Ascii.eqb_neq in Hc.
      destruct (split_comma rest) as [|piece pieces].
      * by repeat constructor.
      * inversion IH; subst. by repeat constructor.
Qed.

Lemma trim_start_comma_free s : comma_free s → comma_free (trim_start s).
Proof.
  induction s as [|c rest IH]; simpl; [done|].
  intros [Hc Hrest]. destruct (is_white_space c); simpl; auto.
Qed.

Lemma trim_end_comma_free s : comma_free s → comma_free (trim_end s).
Proof.
  induction s as [|c rest IH]; simpl; [done|].
  intros [Hc Hrest]. specialize (IH Hrest).
  destruct (trim_end rest); simpl in *.
  - by destruct (is_white_space c).
  - tauto.
Qed.

Lemma trim_comma_free s : comma_free s → comma_free (trim s).
Proof. intros. by apply trim_end_comma_free, trim_start_comma_free. Qed.

Lemma needs_expansion_single q i t c :
  c ≠ ","%char → needs_expansion (Edge i q t (String c EmptyString)) = false.
Proof.
  intros Hc. apply Ascii.eqb_neq in Hc.
  unfold needs_expansion. simpl. by rewrite Hc.
Qed.

Lemma sub_labels_nonempty_spec e :
  sub_labels_nonempty e = true ↔
  Forall (λ piece, trim piece ≠ EmptyString) (split_comma (edge_label e)).
Proof.
  unfold sub_labels_nonempty. rewrite forallb_forall, Forall_forall.
  split; intros H piece Hin.
  - apply list_elem_of_In, H in Hin. apply negb_true_iff in Hin.
    by apply String.eqb_neq.
  - apply negb_true_iff, String.eqb_neq, H. by apply list_elem_of_In.
Qed.

(** An original edge that the scan leaves alone has a one-character label,
    provided its only sub-label does not trim to nothing. *)
Lemma unexpanded_settled e :
  needs_expansion e = false → sub_labels_nonempty e = true → settled e.
Proof.
  intros Hneed Hne. split; [done|].
  apply sub_labels_nonempty_spec in Hne.
  unfold needs_expansion in Hneed. apply orb_false_iff in Hneed as [Hmany Hlong].
  destruct (edge_label e) as [|c [|c' rest]]; simpl in *.
  - inversion Hne; subst. done.
  - done.
  - exfalso. destruct (Ascii.eqb c ",").
    + simpl in Hmany. pose proof (split_comma_nonempty (String c' rest)) as Hn.
      simpl in Hn. destruct (Ascii.eqb c' ","); [done|].
      by destruct (split_comma rest).
    + destruct (Ascii.eqb c' ",") eqn:Hc'.
      * pose proof (split_comma_nonempty rest). simpl in Hmany.
        by destruct (split_comma rest).
      * destruct (split_comma rest) as [|piece pieces]; simpl in *; [done|].
        done.
Qed.

(** ** The store *)

Lemma edges_at_write a items w : edges_at (write_edges a items w) a = items.
Proof. unfold edges_at, write_edges. simpl. by rewrite lookup_insert_eq. Qed.

Lemma same_but_refl a w : same_but a w w.
Proof. by split. Qed.

Lemma same_but_trans a w1 w2 w3 :
  same_but a w1 w2 → same_but a w2 w3 → same_but a w1 w3.
Proof.
  intros [Hn1 He1] [Hn2 He2]. split; [congruence|].
  intros l Hl. by rewrite He2, He1.
Qed.

Lemma same_but_write a items w : same_but a w (write_edges a items w).
Proof. split; [done|]. intros l Hl. simpl. by rewrite lookup_insert_ne. Qed.

(** ** What one expansion appends *)

Ltac run := unfold mbind, comp_bind, mret, comp_ret; simpl.

Section Normaliser.

Variable uuid : nat → string.

Lemma preProcess_chars_run a edgeTo s : ∀ previousTo w,
  ∃ w', preProcess_chars uuid a edgeTo previousTo s w = (Return tt, w') ∧
        same_but a w w' ∧
        edges_at w' a = edges_at w a ++ chain uuid (uuid_next w) previousTo edgeTo s ∧
        uuid_next w' = uuid_next w + draws s.
Proof.
  induction s as [|ch rest IH]; intros previousTo w.
  - exists w. simpl. rewrite app_nil_r, Nat.add_0_r.
    repeat split; done.
  - destruct rest as [|ch' rest'].
    + eexists. simpl. run. split; [reflexivity|].
      split; [|split].
      * split; [done|]. intros l Hl. simpl. by rewrite lookup_insert_ne.
      * unfold edges_at at 1. simpl. by rewrite lookup_insert_eq.
      * simpl. lia.
    + set (rest := String ch' rest') in *.
      set (w1 := World (node_store w) (edge_store w) (S (S (uuid_next w)))).
      set (new := Edge (uuid (uuid_next w)) previousTo (uuid (S (uuid_next w)))
                       (String ch EmptyString)).
      set (w2 := write_edges a (edges_at w1 a ++ [new]) w1).
      destruct (IH (uuid (S (uuid_next w))) w2) as (w' & Hrun & Hsame & Harr & Hk).
      exists w'. split; [|split; [|split]].
      * simpl. run. subst rest. fold w1. exact Hrun.
      * eapply same_but_trans; [|exact Hsame].
        split; [done|]. intros l Hl. simpl. by rewrite lookup_insert_ne.
      * rewrite Harr. subst w2. rewrite edges_at_write. simpl.
        rewrite <- app_assoc. done.
      * rewrite Hk. subst rest. simpl. lia.
Qed.

Lemma preProcess_labels_run a e pieces : ∀ w,
  ∃ w', preProcess_labels uuid a e (edge_to e) pieces w = (Return tt, w') ∧
        same_but a w w' ∧
        edges_at w' a = edges_at w a ++ concat (chains uuid (uuid_next w) e pieces) ∧
        uuid_next w' = uuid_next w + all_draws pieces.
Proof.
  induction pieces as [|piece later IH]; intros w.
  - exists w. simpl. rewrite app_nil_r, Nat.add_0_r. repeat split; done.
  - destruct (preProcess_chars_run a (edge_to e) (trim piece) (edge_from e) w)
      as (w1 & Hrun1 & Hsame1 & Harr1 & Hk1).
    destruct (IH w1) as (w' & Hrun & Hsame & Harr & Hk).
    exists w'. split; [|split; [|split]].
    + simpl. run. by rewrite Hrun1.
    + by eapply same_but_trans.
    + rewrite Harr, Harr1, Hk1. simpl. by rewrite <- app_assoc.
    + rewrite Hk, Hk1. simpl. lia.
Qed.

Lemma expand_run a i e w :
  ∃ w', expand uuid a i e w = (Return tt, w') ∧
        same_but a w w' ∧
        edges_at w' a =
          delete i (edges_at w a ++
                    concat (chains uuid (uuid_next w) e (split_comma (edge_label e)))) ∧
        uuid_next w' = uuid_next w + all_draws (split_comma (edge_label e)).
Proof.
  destruct (preProcess_labels_run a e (split_comma (edge_label e)) w)
    as (w1 & Hrun1 & Hsame1 & Harr1 & Hk1).
  eexists. split; [|split; [|split]].
  - unfold expand. run. rewrite Hrun1. reflexivity.
  - eapply same_but_trans; [exact Hsame1|]. apply same_but_write.
  - by rewrite edges_at_write, Harr1.
  - done.
Qed.

End Normaliser.

(** ** Chains *)

Section ChainFacts.

Variable uuid : nat → string.

Lemma chain_length s : ∀ k p t, length (chain uuid k p t s) = String.length s.
Proof.
  induction s as [|ch rest IH]; intros k p t; [done|].
  destruct rest as [|ch' rest']; [done|].
  change (S (length (chain uuid (S (S k)) (uuid (S k)) t (String ch' rest')))
          = S (String.length (String ch' rest'))).
  by rewrite IH.
Qed.

Lemma chain_cons ch ch' rest k p t :
  chain uuid k p t (String ch (String ch' rest)) =
  Edge (uuid k) p (uuid (S k)) (String ch EmptyString)
    :: chain uuid (S (S k)) (uuid (S k)) t (String ch' rest).
Proof. done. Qed.

Lemma chain_settled s : ∀ k p t,
  comma_free s → Forall settled (chain uuid k p t s).
Proof.
  induction s as [|ch rest IH]; intros k p t Hfree; [constructor|].
  destruct Hfree as [Hch Hrest].
  destruct rest as [|ch' rest'].
  - repeat constructor. by apply needs_expansion_single.
  - rewrite chain_cons. constructor; [|by apply IH].
    split; [by apply needs_expansion_single|done].
Qed.

Lemma chain_labels s : ∀ k p t j x,
  chain uuid k p t s !! j = Some x →
  ∃ c, String.get j s = Some c ∧ edge_label x = String c EmptyString.
Proof.
  induction s as [|ch rest IH]; intros k p t j x Hj; [done|].
  destruct rest as [|ch' rest'].
  - destruct j as [|j]; simpl in Hj; [|done]. simplify_eq. by exists ch.
  - rewrite chain_cons in Hj. destruct j as [|j]; simpl in Hj.
    + simplify_eq. by exists ch.
    + by apply IH in Hj.
Qed.

Lemma chain_sources s k p t :
  s ≠ EmptyString →
  edge_from <$> chain uuid k p t s = p :: intermediates (chain uuid k p t s).
Proof. destruct s as [|ch [|ch' rest]]; done. Qed.

Lemma chain_head s k p t :
  s ≠ EmptyString → edge_from <$> head (chain uuid k p t s) = Some p.
Proof. destruct s as [|ch [|ch' rest]]; done. Qed.

Lemma chain_last s : ∀ k p t,
  s ≠ EmptyString → edge_to <$> last (chain uuid k p t s) = Some t.
Proof.
  induction s as [|ch rest IH]; intros k p t Hs; [done|].
  destruct rest as [|ch' rest']; [done|].
  rewrite chain_cons.
  specialize (IH (S (S k)) (uuid (S k)) t).
  destruct (chain uuid (S (S k)) (uuid (S k)) t (String ch' rest')) eqn:Hc.
  - pose proof (chain_length (String ch' rest') (S (S k)) (uuid (S k)) t) as Hl.
    by rewrite Hc in Hl.
  - rewrite last_cons_cons. by apply IH.
Qed.

Lemma chain_links s : ∀ k p t j x y,
  chain uuid k p t s !! j = Some x →
  chain uuid k p t s !! S j = Some y →
  edge_to x = edge_from y.
Proof.
  induction s as [|ch rest IH]; intros k p t j x y Hx Hy; [done|].
  destruct rest as [|ch' rest']; [by destruct j|].
  rewrite chain_cons in Hx, Hy.
  remember (chain uuid (S (S k)) (uuid (S k)) t (String ch' rest')) as tl eqn:Htl.
  destruct j as [|j]; simpl in Hx, Hy.
  - injection Hx as <-. simpl.
    assert (edge_from <$> head tl = Some (uuid (S k))) as Hh
      by (subst tl; by apply chain_head).
    destruct tl as [|z zs]; simpl in *; [done|]. congruence.
  - subst tl. by eapply IH.
Qed.

Lemma chain_is_chain e s k :
  s ≠ EmptyString → is_chain e s (chain uuid k (edge_from e) (edge_to e) s).
Proof.
  intros Hs. split; [apply chain_length|].
  split; [apply chain_labels|].
  split; [by apply chain_head|].
  split; [by apply chain_last|apply chain_links].
Qed.

Lemma chain_intermediates s : ∀ k p t,
  intermediates (chain uuid k p t s) = uuid <$> link_draws k s.
Proof.
  induction s as [|ch rest IH]; intros k p t; [done|].
  destruct rest as [|ch' rest']; [done|].
  rewrite chain_cons. unfold intermediates at 1. cbn [tail].
  rewrite chain_sources by done. rewrite IH. done.
Qed.

Lemma link_draws_bounds s : ∀ k,
  Forall (λ j, k < j < k + draws s) (link_draws k s).
Proof.
  induction s as [|ch rest IH]; intros k; [constructor|].
  destruct rest as [|ch' rest']; [constructor|].
  change (link_draws k (String ch (String ch' rest')))
    with (S k :: link_draws (S (S k)) (String ch' rest')).
  constructor.
  - simpl. lia.
  - eapply Forall_impl; [apply IH|]. simpl. intros j. lia.
Qed.

Lemma link_draws_NoDup s : ∀ k, NoDup (link_draws k s).
Proof.
  induction s as [|ch rest IH]; intros k; [constructor|].
  destruct rest as [|ch' rest']; [constructor|].
  change (link_draws k (String ch (String ch' rest')))
    with (S k :: link_draws (S (S k)) (String ch' rest')).
  constructor; [|apply IH].
  intros Hin.
  pose proof (link_draws_bounds (String ch' rest') (S (S k))) as Hb.
  rewrite Forall_forall in Hb. apply Hb in Hin. lia.
Qed.

Lemma chains_intermediates e pieces : ∀ k,
  concat (intermediates <$> chains uuid k e pieces)
  = uuid <$> all_link_draws k pieces.
Proof.
  induction pieces as [|piece later IH]; intros k; [done|].
  simpl. by rewrite fmap_app, chain_intermediates, IH.
Qed.

Lemma all_link_draws_bounds pieces : ∀ k,
  Forall (λ j, k ≤ j < k + all_draws pieces) (all_link_draws k pieces).
Proof.
  induction pieces as [|piece later IH]; intros k; [constructor|].
  simpl. apply Forall_app. split.
  - eapply Forall_impl; [apply link_draws_bounds|]. simpl. intros j. lia.
  - eapply Forall_impl; [apply IH|]. simpl. intros j. lia.
Qed.

Lemma all_link_draws_NoDup pieces : ∀ k, NoDup (all_link_draws k pieces).
Proof.
  induction pieces as [|piece later IH]; intros k; [constructor|].
  simpl. apply NoDup_app. split; [apply link_draws_NoDup|]. split; [|apply IH].
  intros j Hj Hj'.
  pose proof (link_draws_bounds (trim piece) k) as Hb.
  pose proof (all_link_draws_bounds later (k + draws (trim piece))) as Hb'.
  rewrite Forall_forall in Hb, Hb'. apply Hb in Hj. apply Hb' in Hj'. lia.
Qed.

Lemma chains_are_chains e pieces : ∀ k,
  Forall (λ piece, trim piece ≠ EmptyString) pieces →
  Forall2 (is_chain e) (trim <$> pieces) (chains uuid k e pieces).
Proof.
  induction pieces as [|piece later IH]; intros k Hne; [constructor|].
  inversion Hne; subst. simpl. constructor; [by apply chain_is_chain|by apply IH].
Qed.

Lemma chains_settled e pieces : ∀ k,
  Forall comma_free pieces → Forall settled (concat (chains uuid k e pieces)).
Proof.
  induction pieces as [|piece later IH]; intros k Hfree; [constructor|].
  inversion Hfree; subst. simpl. apply Forall_app. split.
  - by apply chain_settled, trim_comma_free.
  - by apply IH.
Qed.

Lemma chains_nonempty e pieces k :
  pieces ≠ [] →
  Forall (λ piece, trim piece ≠ EmptyString) pieces →
  1 ≤ length (concat (chains uuid k e pieces)).
Proof.
  destruct pieces as [|piece later]; [done|]. intros _ Hne.
  inversion Hne; subst. simpl. rewrite length_app, chain_length.
  destruct (trim piece); [done|]. simpl. lia.
Qed.

End ChainFacts.

(** ** The scan loop *)

Lemma drop_cons_inv {A} (l : list A) i x rest :
  drop i l = x :: rest →
  l !! i = Some x ∧ drop (S i) l = rest ∧
  take (S i) l = take i l ++ [x] ∧ i < length l.
Proof.
  intros Hd.
  assert (l !! i = Some x) as Hi.
  { rewrite <- (Nat.add_0_r i), <- lookup_drop, Hd. done. }
  split; [done|]. split; [|split].
  - replace (S i) with (i + 1) by lia. by rewrite <- drop_drop, Hd.
  - by apply take_S_r.
  - by eapply lookup_lt_Some.
Qed.

Section Scan.

Variable uuid : nat → string.

Lemma scan_done fuel a n i w :
  n ≤ i → preProcess_scan uuid fuel a n i w = (Return tt, w).
Proof.
  intros Hi. destruct fuel; simpl;
    (destruct (Nat.ltb_spec i n); [lia|done]).
Qed.

Lemma scan_no_fuel a n i w :
  i < n → preProcess_scan uuid 0 a n i w = (OutOfFuel, w).
Proof. intros Hi. simpl. by destruct (Nat.ltb_spec i n); [|lia]. Qed.

Lemma scan_undefined fuel a n i w :
  i < n → edges_at w a !! i = None →
  preProcess_scan uuid (S fuel) a n i w = (Throw property_of_undefined, w).
Proof.
  intros Hi Hslot. simpl. destruct (Nat.ltb_spec i n); [|lia].
  run. unfold array_index. by rewrite Hslot.
Qed.

Lemma scan_advance fuel a n i w e :
  i < n → edges_at w a !! i = Some e → needs_expansion e = false →
  preProcess_scan uuid (S fuel) a n i w
  = preProcess_scan uuid fuel a n (i + 1) w.
Proof.
  intros Hi Hslot Hneed. simpl. destruct (Nat.ltb_spec i n); [|lia].
  run. unfold array_index. by rewrite Hslot, Hneed.
Qed.

Lemma scan_expand fuel a n i w e w1 :
  i < n → edges_at w a !! i = Some e → needs_expansion e = true →
  expand uuid a i e w = (Return tt, w1) →
  preProcess_scan uuid (S fuel) a n i w
  = preProcess_scan uuid fuel a n i w1.
Proof.
  intros Hi Hslot Hneed Hexp. simpl. destruct (Nat.ltb_spec i n); [|lia].
  unfold mbind, comp_bind at 1. unfold array_index at 1.
  rewrite Hslot, Hneed. unfold mbind, comp_bind at 1. by rewrite Hexp.
Qed.

(** The scan writes to its array only, and the only exception it can
    raise is the one for an undefined slot. *)
Lemma preProcess_scan_frame fuel a n : ∀ i w,
  same_but a w (snd (preProcess_scan uuid fuel a n i w)) ∧
  ∀ e, fst (preProcess_scan uuid fuel a n i w) = Throw e →
       e = property_of_undefined.
Proof.
  induction fuel as [|fuel IH]; intros i w.
  - destruct (decide (i < n)).
    + rewrite scan_no_fuel by done. split; [apply same_but_refl|done].
    + rewrite scan_done by lia. split; [apply same_but_refl|done].
  - destruct (decide (i < n)) as [Hi|Hi].
    2: { rewrite scan_done by lia. split; [apply same_but_refl|done]. }
    destruct (edges_at w a !! i) as [e|] eqn:Hslot.
    2: { rewrite scan_undefined by done. split; [apply same_but_refl|].
         by intros e [= <-]. }
    destruct (needs_expansion e) eqn:Hneed.
    + destruct (expand_run uuid a i e w) as (w1 & Hexp & Hsame & _).
      rewrite (scan_expand fuel a n i w e w1) by done.
      destruct (IH i w1) as [Hsame1 Hthrow]. split; [|done].
      by eapply same_but_trans.
    + rewrite (scan_advance fuel a n i w e) by done. apply IH.
Qed.

(** Under the invariant, with fuel for the slots still to visit and the
    originals still to expand, the scan returns and leaves only settled
    edges in the array. *)
Lemma preProcess_scan_settles fuel a n : ∀ i w R N,
  scan_inv n i (edges_at w a) R N →
  (n - i) + length R ≤ fuel →
  ∃ w', preProcess_scan uuid fuel a n i w = (Return tt, w') ∧
        Forall settled (edges_at w' a).
Proof.
  induction fuel as [|fuel IH]; intros i w R N Hinv Hfuel;
    destruct Hinv as (Hdrop & Htake & HR & HN & Hbound & Hlen).
  - assert (i = n) as -> by lia. assert (R = []) as -> by (destruct R; simpl in *; [done|lia]).
    exists w. rewrite scan_done by lia. split; [done|].
    rewrite <- (take_drop n (edges_at w a)), Hdrop. by apply Forall_app.
  - destruct (decide (i < n)) as [Hi|Hi].
    2: { assert (i = n) as -> by lia.
         assert (R = []) as -> by (destruct R; simpl in *; [done|lia]).
         exists w. rewrite scan_done by lia. split; [done|].
         rewrite <- (take_drop n (edges_at w a)), Hdrop. by apply Forall_app. }
    destruct R as [|r R'].
    + destruct N as [|x N'].
      { simpl in Hdrop. apply (f_equal length) in Hdrop.
        rewrite length_drop in Hdrop. simpl in Hdrop. lia. }
      simpl in Hdrop.
      apply drop_cons_inv in Hdrop as (Hslot & Hdrop' & Htake' & _).
      apply Forall_cons in HN as [Hx HN'].
      rewrite (scan_advance fuel a n i w x) by (done || apply Hx).
      rewrite Nat.add_1_r. apply (IH (S i) w [] N'); [|simpl in *; lia].
      repeat split; try done.
      * rewrite Htake'. apply Forall_app. split; [done|].
        constructor; [done|constructor].
      * simpl. lia.
    + simpl in Hdrop.
      apply drop_cons_inv in Hdrop as (Hslot & Hdrop' & Htake' & Hlt).
      apply Forall_cons in HR as [Hr HR'].
      destruct (needs_expansion r) eqn:Hneed.
      * destruct (expand_run uuid a i r w) as (w1 & Hexp & Hsame & Harr & _).
        rewrite (scan_expand fuel a n i w r w1) by done.
        set (new := concat (chains uuid (uuid_next w) r (split_comma (edge_label r)))) in *.
        assert (1 ≤ length new) as Hnew.
        { apply chains_nonempty; [apply split_comma_nonempty|].
          by apply sub_labels_nonempty_spec. }
        assert (Forall settled new) as Hset.
        { apply chains_settled, split_comma_comma_free. }
        apply (IH i w1 R' (N ++ new)); [|simpl in *; lia].
        rewrite Harr, delete_take_drop.
        rewrite (take_app_le _ new) by lia.
        rewrite (drop_app_le _ new) by lia. rewrite Hdrop'.
        repeat split.
        -- rewrite drop_app_length' by (rewrite length_take; lia).
           by rewrite app_assoc.
        -- rewrite take_app_length' by (rewrite length_take; lia). done.
        -- done.
        -- by apply Forall_app.
        -- simpl in *. lia.
        -- rewrite !length_app, length_take. simpl in *.
           assert (length (R' ++ N) = length (edges_at w a) - S i) as Hrest
             by (by rewrite <- Hdrop', length_drop).
           rewrite length_app in Hrest. lia.
      * rewrite (scan_advance fuel a n i w r) by done.
        rewrite Nat.add_1_r. apply (IH (S i) w R' N); [|simpl in *; lia].
        repeat split; try done.
        -- rewrite Htake'. apply Forall_app. split; [done|].
           constructor; [by apply unexpanded_settled|constructor].
        -- simpl in *. lia.
Qed.

End Scan.

(** ** preProcess as a whole *)

Lemma delete_app_l {A} (l k : list A) : ∀ i,
  i < length l → delete i (l ++ k) = delete i l ++ k.
Proof.
  induction l as [|x l IH]; intros i Hi; simpl in *; [lia|].
  destruct i as [|i]; [done|]. simpl. rewrite IH by lia. done.
Qed.

Section Normalisation.

Variable uuid : nat → string.

Lemma preProcess_frame fuel nodes edges w :
  same_but edges w (snd (preProcess uuid fuel nodes edges w)) ∧
  ∀ e, fst (preProcess uuid fuel nodes edges w) = Throw e →
       e = property_of_undefined.
Proof. unfold preProcess. run. apply preProcess_scan_frame. Qed.

Lemma preProcess_settles fuel nodes edges w :
  Forall (λ e, sub_labels_nonempty e = true) (edges_at w edges) →
  2 * length (edges_at w edges) ≤ fuel →
  ∃ w', preProcess uuid fuel nodes edges w = (Return tt, w') ∧
        Forall settled (edges_at w' edges).
Proof.
  intros Hne Hfuel. unfold preProcess. run.
  apply (preProcess_scan_settles uuid fuel edges _ 0 w (edges_at w edges) []).
  - repeat split; try done. by rewrite app_nil_r.
  - lia.
Qed.

(** The working copies made by the two [get()] calls. *)
Lemma working_copies dataNodes dataEdges w :
  let nodes := fresh (dom (node_store w)) in
  let edges := fresh (dom (edge_store w)) in
  let w2 := write_edges edges (edges_at w dataEdges)
              (write_nodes nodes (nodes_at w dataNodes) w) in
  (nodes ← DataSet_get_nodes dataNodes;
   edges ← DataSet_get_edges dataEdges;
   mret (nodes, edges)) w = (Return (nodes, edges), w2) ∧
  nodes_at w2 nodes = nodes_at w dataNodes ∧
  edges_at w2 edges = edges_at w dataEdges.
Proof.
  simpl. split; [done|]. split.
  - unfold nodes_at at 1. simpl. by rewrite lookup_insert_eq.
  - apply edges_at_write.
Qed.

Lemma normalized_nodes fuel data w ns es :
  normalized uuid fuel data w = Some (ns, es) → ns = graph_nodes w data.
Proof.
  unfold normalized, graph_nodes.
  destruct (DataSet_of (the_nodes data)) as [dn|]; [|done].
  destruct (DataSet_of (the_edges data)) as [de|]; [|done].
  run.
  set (a := fresh (dom (node_store w))).
  set (b := fresh (dom (edge_store w))).
  set (w2 := write_edges b _ _).
  pose proof (preProcess_frame fuel a b w2) as [[Hnodes _] _].
  destruct (preProcess uuid fuel a b w2) as [[[]|e|] w3]; simpl in *; try done.
  intros [= <- _]. unfold nodes_at. rewrite Hnodes. subst w2. simpl.
  by rewrite lookup_insert_eq.
Qed.

Lemma normalized_defined fuel data w :
  isAutomataData data = Return true →
  Forall (λ e, sub_labels_nonempty e = true) (graph_edges w data) →
  2 * length (graph_edges w data) ≤ fuel →
  ∃ ns es, normalized uuid fuel data w = Some (ns, es) ∧ Forall settled es.
Proof.
  intros Hshape Hne Hfuel.
  apply isAutomataData_true in Hshape as (dn & de & ->).
  unfold normalized, graph_edges in *. simpl in *. run.
  set (a := fresh (dom (node_store w))).
  set (b := fresh (dom (edge_store w))).
  set (w2 := write_edges b _ _).
  assert (edges_at w2 b = edges_at w de) as Hcopy.
  { subst w2. by rewrite edges_at_write. }
  destruct (preProcess_settles fuel a b w2) as (w3 & Hrun & Hset).
  { by rewrite Hcopy. }
  { by rewrite Hcopy. }
  rewrite Hrun. simpl. eauto.
Qed.

(** C3. When every comma-separated sub-label of every transition is
    non-empty after trimming, [preProcess] returns (given fuel for twice
    the initial number of transitions) and every transition then in the
    working edge array has a label of length exactly 1. *)
Theorem preProcess_labels_have_length_one fuel nodes edges w :
  Forall (λ e, sub_labels_nonempty e = true) (edges_at w edges) →
  2 * length (edges_at w edges) ≤ fuel →
  ∃ w', preProcess uuid fuel nodes edges w = (Return tt, w') ∧
        Forall (λ e, String.length (edge_label e) = 1) (edges_at w' edges).
Proof.
  intros Hne Hfuel.
  destruct (preProcess_settles fuel nodes edges w Hne Hfuel) as (w' & Hrun & Hset).
  exists w'. split; [done|].
  eapply Forall_impl; [exact Hset|]. by intros e [_ Hlen].
Qed.

(** One iteration of the scan at a slot [i] holding a transition [e] that
    needs expansion and whose sub-labels are all non-empty after trimming:
    the array loses slot [i] and gains one chain per trimmed sub-label. *)
Lemma scan_iteration_replaces_edge a i e w :
  edges_at w a !! i = Some e →
  needs_expansion e = true →
  sub_labels_nonempty e = true →
  ∃ w' cs js,
    (∀ fuel n, i < n →
       preProcess_scan uuid (S fuel) a n i w = preProcess_scan uuid fuel a n i w') ∧
    edges_at w' a = delete i (edges_at w a) ++ concat cs ∧
    Forall2 (is_chain e) (trim <$> split_comma (edge_label e)) cs ∧
    concat (intermediates <$> cs) = uuid <$> js ∧
    NoDup js ∧
    Forall (λ j, uuid_next w ≤ j < uuid_next w') js ∧
    ((∀ j j', uuid j = uuid j' → j = j') →
       NoDup (concat (intermediates <$> cs))) ∧
    node_store w' = node_store w ∧
    (∀ l, l ≠ a → edge_store w' !! l = edge_store w !! l).
Proof.
  intros Hslot Hneed Hne.
  destruct (expand_run uuid a i e w) as (w' & Hexp & [Hnodes Hothers] & Harr & Hk).
  set (pieces := split_comma (edge_label e)) in *.
  exists w', (chains uuid (uuid_next w) e pieces),
    (all_link_draws (uuid_next w) pieces).
  split; [|split; [|split; [|split; [|split; [|split; [|split; [|split]]]]]]].
  - intros fuel n Hi. by apply (scan_expand uuid fuel a n i w e w').
  - rewrite Harr. apply delete_app_l. by eapply lookup_lt_Some.
  - apply chains_are_chains. by apply sub_labels_nonempty_spec.
  - apply chains_intermediates.
  - apply all_link_draws_NoDup.
  - rewrite Hk. apply all_link_draws_bounds.
  - intros Hinj. rewrite chains_intermediates.
    assert (Inj (=) (=) uuid) by exact Hinj.
    apply (NoDup_fmap_2 uuid), all_link_draws_NoDup.
  - done.
  - done.
Qed.

End Normalisation.

(** ** computeDFA *)

Lemma first_final_unique_ids ns q n :
  NoDup (node_id <$> ns) →
  n ∈ ns → node_id n = q → truthy (node_final n) = true →
  first_final ns q n.
Proof.
  intros Hids Hn Hq Hfin.
  apply list_elem_of_lookup_1 in Hn as [i Hi].
  exists i. repeat split; try done.
  intros j m Hj Hm [Hmq _].
  assert ((node_id <$> ns) !! i = Some q) by (by rewrite list_lookup_fmap, Hi, <- Hq).
  assert ((node_id <$> ns) !! j = Some q) by (by rewrite list_lookup_fmap, Hm, <- Hmq).
  assert (i = j) by (by eapply NoDup_lookup). lia.
Qed.

Section Evaluation.

Variable uuid : nat → string.

(** C1. On a graph that passes the shape check and whose normalised
    transitions are deterministic, if the input, read left to right from
    state "1" along matching transitions, is consumed entirely and ends in
    state [q] (there is only one such [q]), then the verdict is
    [{valid: true, accepted: true, acceptedNodeLabel: L}] with [L] the
    label of the first node of the caller's state collection whose id is
    [q] and whose final flag is truthy (the only such node when ids are
    unique), and [{valid: true, accepted: false}] when no node has id [q]
    and a truthy final flag. *)
Theorem computeDFA_verdict_after_full_walk fuel input data w ns es q :
  isAutomataData data = Return true →
  normalized uuid fuel data w = Some (ns, es) →
  isValidDFA ns es = true →
  walk es "1" input q →
  ns = graph_nodes w data ∧
  (∀ q', walk es "1" input q' → q' = q) ∧
  (∀ n, first_final ns q n →
     fst (computeDFA uuid fuel input data w)
     = Return (DfaResponse true (Some true) (Some (node_label n)))) ∧
  (NoDup (node_id <$> ns) →
   ∀ n, n ∈ ns → node_id n = q → truthy (node_final n) = true →
     fst (computeDFA uuid fuel input data w)
     = Return (DfaResponse true (Some true) (Some (node_label n)))) ∧
  (no_final ns q →
     fst (computeDFA uuid fuel input data w)
     = Return (DfaResponse true (Some false) None)).
Proof.
  intros Hshape Hnorm Hvalid Hwalk.
  pose proof (computeDFA_normalized uuid fuel input data w ns es Hshape Hnorm) as Hrun.
  rewrite Hvalid in Hrun. simpl in Hrun.
  rewrite (walk_traverse es "1" input q Hvalid Hwalk) in Hrun.
  assert (∀ n, first_final ns q n →
     fst (computeDFA uuid fuel input data w)
     = Return (DfaResponse true (Some true) (Some (node_label n)))) as Hacc.
  { intros n Hn. by rewrite Hrun, (find_first_final ns q n Hn). }
  split; [by eapply normalized_nodes|].
  split; [|split; [done|split]].
  - intros q' Hwalk'. apply (walk_traverse es "1" input q' Hvalid) in Hwalk'.
    apply (walk_traverse es "1" input q Hvalid) in Hwalk. congruence.
  - intros Hids n Hn Hq Hfin. by apply Hacc, first_final_unique_ids.
  - intros Hno. by rewrite Hrun, (find_no_final ns q Hno).
Qed.

(** C5. On a graph that passes the shape check and whose normalised
    transitions contain two transitions, at different positions, with the
    same source and the same label, the verdict is [{valid: false}] for
    every input: [accepted] and [acceptedNodeLabel] are absent. *)
Theorem computeDFA_invalid_on_clash fuel data w ns es :
  isAutomataData data = Return true →
  normalized uuid fuel data w = Some (ns, es) →
  clash es →
  ∀ input,
    fst (computeDFA uuid fuel input data w)
    = Return (DfaResponse false None None).
Proof.
  intros Hshape Hnorm Hclash input.
  rewrite (computeDFA_normalized uuid fuel input data w ns es Hshape Hnorm).
  apply isUniqueEdges_clash in Hclash. unfold isValidDFA. by rewrite Hclash.
Qed.

(** C6. On a graph that passes the shape check and whose normalised
    transitions are deterministic, if a prefix of the input leads from
    state "1" to [q] and no transition leaves [q] on the next character
    [c], the verdict is [{valid: true, accepted: false}], without
    [acceptedNodeLabel], whatever follows [c] in the input. *)
Theorem computeDFA_rejects_at_dead_end fuel data w ns es prefix q c :
  isAutomataData data = Return true →
  normalized uuid fuel data w = Some (ns, es) →
  isValidDFA ns es = true →
  walk es "1" prefix q →
  (∀ e, e ∈ es →
     ¬ (edge_from e = q ∧ edge_label e = String c EmptyString)) →
  ∀ suffix,
    fst (computeDFA uuid fuel (String.append prefix (String c suffix)) data w)
    = Return (DfaResponse true (Some false) None).
Proof.
  intros Hshape Hnorm Hvalid Hwalk Hdead suffix.
  rewrite (computeDFA_normalized uuid fuel _ data w ns es Hshape Hnorm).
  rewrite Hvalid. simpl.
  by rewrite (traverse_dead_end es "1" prefix q c suffix Hvalid Hwalk Hdead).
Qed.

(** C10. On a graph that passes the shape check and whose normalised
    transitions are deterministic, the empty input is accepted exactly
    when the caller's state collection has a node with id "1" and a truthy
    final flag; the label reported is that of the first such node (the
    only one when ids are unique); otherwise the verdict is
    [{valid: true, accepted: false}]. *)
Theorem computeDFA_empty_input fuel data w ns es :
  isAutomataData data = Return true →
  normalized uuid fuel data w = Some (ns, es) →
  isValidDFA ns es = true →
  ns = graph_nodes w data ∧
  ((∃ L, fst (computeDFA uuid fuel EmptyString data w)
         = Return (DfaResponse true (Some true) (Some L)))
   ↔ ∃ n, n ∈ ns ∧ node_id n = "1" ∧ truthy (node_final n) = true) ∧
  (∀ n, first_final ns "1" n →
     fst (computeDFA uuid fuel EmptyString data w)
     = Return (DfaResponse true (Some true) (Some (node_label n)))) ∧
  (fst (computeDFA uuid fuel EmptyString data w)
     = Return (DfaResponse true (Some false) None)
   ↔ ¬ ∃ n, n ∈ ns ∧ node_id n = "1" ∧ truthy (node_final n) = true).
Proof.
  intros Hshape Hnorm Hvalid.
  pose proof (computeDFA_normalized uuid fuel EmptyString data w ns es Hshape Hnorm)
    as Hrun.
  rewrite Hvalid in Hrun. simpl in Hrun.
  split; [by eapply normalized_nodes|].
  destruct (find (accepts_at "1") ns) as [n0|] eqn:Hfind.
  - pose proof (find_accepting_first ns "1" n0 Hfind) as Hfirst.
    assert (∃ n, n ∈ ns ∧ node_id n = "1" ∧ truthy (node_final n) = true) as Hex.
    { destruct Hfirst as (i & Hi & Hid & Hfin & _). exists n0.
      split; [by eapply list_elem_of_lookup_2|done]. }
    split; [|split].
    + split; [done|]. intros _. eexists. exact Hrun.
    + intros n Hn. apply find_first_final in Hn. congruence.
    + rewrite Hrun. split; [done|]. intros Hno. by destruct Hno.
  - assert (¬ ∃ n, n ∈ ns ∧ node_id n = "1" ∧ truthy (node_final n) = true) as Hno.
    { intros (n & Hn & Hid & Hfin). apply list_elem_of_In in Hn.
      pose proof (find_none _ _ Hfind n Hn) as Hacc.
      assert (accepts_at "1" n = true) by (by apply accepts_at_spec). congruence. }
    split; [|split].
    + rewrite Hrun. split; [by intros [L [=]]|]. intros Hex. by destruct Hno.
    + intros n Hn. apply find_first_final in Hn. congruence.
    + done.
Qed.

(** C9. On a graph that passes the shape check and in which every
    sub-label of every transition is non-empty after trimming,
    [computeDFA] returns a verdict: with fuel for twice the number of
    transitions the scan of [preProcess] neither runs out of fuel nor
    reads an undefined slot, and nothing is thrown. *)
Theorem computeDFA_returns_a_verdict fuel input data w :
  isAutomataData data = Return true →
  Forall (λ e, sub_labels_nonempty e = true) (graph_edges w data) →
  2 * length (graph_edges w data) ≤ fuel →
  ∃ v w', computeDFA uuid fuel input data w = (Return v, w').
Proof.
  intros Hshape Hne Hfuel.
  destruct (normalized_defined uuid fuel data w Hshape Hne Hfuel)
    as (ns & es & Hnorm & _).
  pose proof (computeDFA_normalized uuid fuel input data w ns es Hshape Hnorm) as Hrun.
  destruct (computeDFA uuid fuel input data w) as [r w']. simpl in Hrun.
  subst r. eauto.
Qed.

Lemma computeDFA_world fuel input dataNodes dataEdges w :
  let nodes := fresh (dom (node_store w)) in
  let edges := fresh (dom (edge_store w)) in
  let w2 := write_edges edges (edges_at w dataEdges)
              (write_nodes nodes (nodes_at w dataNodes) w) in
  snd (computeDFA uuid fuel input (object (DataSet dataNodes) (DataSet dataEdges)) w)
  = snd (preProcess uuid fuel nodes edges w2) ∧
  ∀ e, fst (computeDFA uuid fuel input
              (object (DataSet dataNodes) (DataSet dataEdges)) w) = Throw e →
       fst (preProcess uuid fuel nodes edges w2) = Throw e.
Proof.
  intros nodes edges w2. unfold computeDFA. simpl. run.
  fold nodes edges. change (write_edges edges _ _) with w2.
  destruct (preProcess uuid fuel nodes edges w2) as [[[]|e|] w3]; simpl.
  - destruct (negb _); [by split|].
    destruct (traverse _ _ _); [|by split].
    destruct (find _ _); by split.
  - split; [done|]. by intros e0 [= ->].
  - by split.
Qed.

(** C8. Every location that is allocated when [computeDFA] is called
    holds the same items when it returns or throws; in particular the
    caller's node and edge collections do. The arrays that [preProcess]
    pushes to and splices are the ones [get()] has just allocated. *)
Theorem computeDFA_keeps_caller_collections fuel input data w :
  let w' := snd (computeDFA uuid fuel input data w) in
  (∀ l, l ∈ dom (node_store w) → node_store w' !! l = node_store w !! l) ∧
  (∀ l, l ∈ dom (edge_store w) → edge_store w' !! l = edge_store w !! l) ∧
  (∀ dataNodes dataEdges,
     data = object (DataSet dataNodes) (DataSet dataEdges) →
     dataNodes ∈ dom (node_store w) → dataEdges ∈ dom (edge_store w) →
     graph_nodes w' data = graph_nodes w data ∧
     graph_edges w' data = graph_edges w data).
Proof.
  intros w'.
  assert ((∀ l, l ∈ dom (node_store w) → node_store w' !! l = node_store w !! l) ∧
          (∀ l, l ∈ dom (edge_store w) → edge_store w' !! l = edge_store w !! l))
    as [Hnodes Hedges].
  { subst w'. destruct data as [|[| |dn] [| |de]]; try done.
    destruct (computeDFA_world fuel input dn de w) as [-> _].
    set (a := fresh (dom (node_store w))).
    set (b := fresh (dom (edge_store w))).
    set (w2 := write_edges b _ _).
    destruct (preProcess_frame uuid fuel a b w2) as [[Hn He] _].
    split.
    - intros l Hl. rewrite Hn. subst w2. simpl.
      apply lookup_insert_ne. intros <-. by apply (is_fresh (dom (node_store w))).
    - intros l Hl.
      assert (l ≠ b) by (intros ->; by apply (is_fresh (dom (edge_store w)))).
      rewrite He by done. subst w2. simpl. by apply lookup_insert_ne. }
  split; [done|]. split; [done|].
  intros dn de -> Hdn Hde. unfold graph_nodes, graph_edges, nodes_at, edges_at.
  simpl. by rewrite Hnodes, Hedges.
Qed.

(** C7, amended. [computeDFA] fails with a [TypeError] raised by its
    shape check exactly when the value does not carry both a [nodes] and
    an [edges] member that are [DataSet] instances: presence of the two
    members is not enough. Such a failure is the one thrown at the end of
    [computeDFA] for an object, and the one of the [in] operator for a
    primitive. *)
Theorem computeDFA_shape_failure fuel input data w :
  ((∃ e, fst (computeDFA uuid fuel input data w) = Throw e ∧
         raised_by_shape_check e = true)
   ↔ instanceof_DataSet (the_nodes data) && instanceof_DataSet (the_edges data)
     = false) ∧
  (∀ nodes edges, data = object nodes edges →
     instanceof_DataSet nodes && instanceof_DataSet edges = false →
     computeDFA uuid fuel input data w = (Throw only_accepts_Dataset, w)) ∧
  (data = primitive →
     computeDFA uuid fuel input data w = (Throw in_on_primitive, w)).
Proof.
  split; [|split].
  - destruct data as [|[| |dn] [| |de]]; simpl;
      try (split; [done|]; intros _; eexists; split; [reflexivity|done]).
    split; [|done]. intros (e & Hthrow & Hshape).
    destruct (computeDFA_world fuel input dn de w) as [_ Hpre].
    apply Hpre in Hthrow.
    apply (proj2 (preProcess_frame uuid fuel _ _ _)) in Hthrow. by subst e.
  - intros nodes edges -> Hno. unfold computeDFA. run.
    destruct nodes, edges; simpl in *; done.
  - by intros ->.
Qed.

End Evaluation.

(** * The properties on concrete graphs *)

Example demo_normalized :
  normalized demo_uuid 2 demo_data demo_world = Some (demo_nodes, demo_edges).
Proof. vm_compute. reflexivity. Qed.

Example demo_accepts_ab :
  fst (computeDFA demo_uuid 2 "ab" demo_data demo_world)
  = Return (DfaResponse true (Some true) (Some "end")).
Proof. vm_compute. reflexivity. Qed.

Example demo_rejects_b :
  fst (computeDFA demo_uuid 2 "b" demo_data demo_world)
  = Return (DfaResponse true (Some false) None).
Proof. vm_compute. reflexivity. Qed.

(** An empty sub-label: the scan reaches a slot past the end of the array. *)
Example empty_sub_label_throws :
  fst (computeDFA demo_uuid 9 "a"
         (object (DataSet 1%positive) (DataSet 1%positive))
         (World {[ 1%positive := demo_nodes ]}
                {[ 1%positive := [Edge "e1" "1" "2" ","] ]} 0))
  = Throw property_of_undefined.
Proof. vm_compute. reflexivity. Qed.

(** [preProcess] does change the array it is handed: run on the location
    of the caller's collection itself, it would rewrite it. *)
Example preProcess_rewrites_its_array :
  edges_at (snd (preProcess demo_uuid 2 1%positive 1%positive demo_world)) 1%positive
  = demo_edges ∧
  edges_at demo_world 1%positive = [demo_edge].
Proof. split; vm_compute; reflexivity. Qed.

Lemma computeDFA_verdict_after_full_walk_witness :
  walk demo_edges "1" "ab" "2" ∧
  fst (computeDFA demo_uuid 2 "ab" demo_data demo_world)
  = Return (DfaResponse true (Some true) (Some "end")).
Proof.
  assert (walk demo_edges "1" "ab" "2") as Hwalk
    by (apply traverse_walk; reflexivity).
  split; [exact Hwalk|].
  refine (proj1 (proj2 (proj2
    (computeDFA_verdict_after_full_walk demo_uuid 2 "ab" demo_data demo_world
       demo_nodes demo_edges "2" _ _ _ Hwalk))) (Node "2" "end" (Some true)) _).
  - reflexivity.
  - vm_compute. reflexivity.
  - reflexivity.
  - apply find_accepting_first. reflexivity.
Defined.

Lemma preProcess_labels_have_length_one_witness :
  ∃ w', preProcess demo_uuid 2 1%positive 1%positive demo_world = (Return tt, w') ∧
        Forall (λ e, String.length (edge_label e) = 1) (edges_at w' 1%positive).
Proof.
  apply (preProcess_labels_have_length_one demo_uuid 2 1%positive 1%positive demo_world).
  - change (edges_at demo_world 1%positive) with [demo_edge].
    constructor; [reflexivity|constructor].
  - change (edges_at demo_world 1%positive) with [demo_edge]. simpl. lia.
Defined.

Lemma computeDFA_invalid_on_clash_witness :
  clash twice_edges ∧
  fst (computeDFA demo_uuid 4 "a" demo_data twice_world)
  = Return (DfaResponse false None None).
Proof.
  assert (clash twice_edges) as Hclash.
  { exists 0, 1, (Edge "e1" "1" "1" "a"), (Edge "e2" "1" "1" "a").
    repeat split; (done || lia). }
  split; [exact Hclash|].
  apply (computeDFA_invalid_on_clash demo_uuid 4 demo_data twice_world
           twice_nodes twice_edges).
  - reflexivity.
  - vm_compute. reflexivity.
  - exact Hclash.
Defined.

Lemma computeDFA_rejects_at_dead_end_witness :
  fst (computeDFA demo_uuid 2 "axb" demo_data demo_world)
  = Return (DfaResponse true (Some false) None).
Proof.
  apply (computeDFA_rejects_at_dead_end demo_uuid 2 demo_data demo_world
           demo_nodes demo_edges "a" "uuid-1" "x"%char).
  - reflexivity.
  - vm_compute. reflexivity.
  - reflexivity.
  - apply traverse_walk. reflexivity.
  - intros e He [Hfrom Hlabel].
    apply list_elem_of_In in He. simpl in He.
    destruct He as [<-|[<-|[<-|[]]]]; discriminate.
Defined.

Lemma computeDFA_empty_input_witness :
  fst (computeDFA demo_uuid 2 "" demo_data loop_world)
  = Return (DfaResponse true (Some true) (Some "start")).
Proof.
  refine (proj1 (proj2 (proj2
    (computeDFA_empty_input demo_uuid 2 demo_data loop_world
       loop_nodes loop_edges _ _ _))) (Node "1" "start" (Some true)) _).
  - reflexivity.
  - vm_compute. reflexivity.
  - reflexivity.
  - apply find_accepting_first. reflexivity.
Defined.

Lemma computeDFA_returns_a_verdict_witness :
  ∃ v w', computeDFA demo_uuid 2 "ab" demo_data demo_world = (Return v, w').
Proof.
  apply (computeDFA_returns_a_verdict demo_uuid 2 "ab" demo_data demo_world).
  - reflexivity.
  - change (graph_edges demo_world demo_data) with [demo_edge].
    constructor; [reflexivity|constructor].
  - change (graph_edges demo_world demo_data) with [demo_edge]. simpl. lia.
Defined.

Lemma computeDFA_keeps_caller_collections_witness :
  graph_nodes (snd (computeDFA demo_uuid 2 "ab" demo_data demo_world)) demo_data
  = demo_nodes ∧
  graph_edges (snd (computeDFA demo_uuid 2 "ab" demo_data demo_world)) demo_data
  = [demo_edge].
Proof.
  apply (proj2 (proj2
    (computeDFA_keeps_caller_collections demo_uuid 2 "ab" demo_data demo_world))
    1%positive 1%positive).
  - reflexivity.
  - apply elem_of_dom. eexists. vm_compute. reflexivity.
  - apply elem_of_dom. eexists. vm_compute. reflexivity.
Defined.

(** C7, as stated, fails: a value that exposes both members, neither of
    them a [DataSet], is refused with the contract-violation error. *)
Lemma plain_object_with_both_members_is_refused :
  exposes_both plain_object = true ∧
  computeDFA demo_uuid 2 "ab" plain_object demo_world
  = (Throw only_accepts_Dataset, demo_world).
Proof. split; reflexivity. Qed.

(** * Further properties of the engine *)

(** ** Which transitions the scan expands *)

(** X1. The test of line 89 holds exactly for the labels of more than one
    character and for the label that is a lone comma: every other label
    (empty, or one character that is not a comma) is left in place. *)
Theorem needs_expansion_iff e :
  needs_expansion e = true ↔
  1 < String.length (edge_label e) ∨ edge_label e = ","%string.
Proof.
  unfold needs_expansion.
  destruct (edge_label e) as [|c [|c' rest]]; simpl.
  - split; [done|]. intros [?|?]; [lia|done].
  - destruct (Ascii.eqb c ",") eqn:Hc; simpl.
    + apply Ascii.eqb_eq in Hc as ->. split; [by right|done].
    + apply Ascii.eqb_neq in Hc. split; [done|].
      intros [?|[= ->]]; [lia|done].
  - split; [intros _; left; lia|]. intros _.
    destruct (Ascii.eqb c ",").
    + simpl. destruct (Ascii.eqb c' ","); simpl.
      * done.
      * by destruct (split_comma rest).
    + destruct (Ascii.eqb c' ",") eqn:Hc'.
      * simpl. pose proof (split_comma_nonempty rest).
        by destruct (split_comma rest).
      * destruct (split_comma rest) as [|piece pieces]; simpl; [done|].
        apply orb_true_r.
Qed.

(** ** The validator and the order of the transitions *)

Lemma isUniqueEdges_NoDup es : isUniqueEdges es = true ↔ NoDup (edge_key <$> es).
Proof.
  induction es as [|e later IH]; simpl.
  - split; [constructor|done].
  - rewrite NoDup_cons, <- IH. destruct (existsb _ later) eqn:Hex.
    + apply existsb_same_from_label in Hex as (x & Hx & Hf & Hl).
      split; [done|]. intros [Hnot _]. destruct Hnot.
      apply list_elem_of_fmap. exists x. split; [|done].
      unfold edge_key. by rewrite Hf, Hl.
    + split; [|tauto]. intros Hlater. split; [|done].
      intros Hin. apply list_elem_of_fmap in Hin as (x & Hkey & Hx).
      assert (existsb (same_from_label e) later = true); [|congruence].
      apply existsb_same_from_label. exists x. split; [done|].
      unfold edge_key in Hkey. by injection Hkey as -> ->.
Qed.

(** X2. Validity does not depend on the order in which the transitions
    are stored: reordering the collection leaves [isUniqueEdges], hence
    [isValidDFA], unchanged. *)
Theorem isUniqueEdges_Permutation es es' :
  es ≡ₚ es' → isUniqueEdges es = isUniqueEdges es'.
Proof.
  intros Hperm.
  assert (isUniqueEdges es = true ↔ isUniqueEdges es' = true) as Hiff.
  { rewrite !isUniqueEdges_NoDup. by rewrite Hperm. }
  destruct (isUniqueEdges es), (isUniqueEdges es'); try done.
  - by destruct (proj1 Hiff).
  - by destruct (proj2 Hiff).
Qed.

(** X3. Removing transitions from a valid collection leaves it valid. *)
Theorem isUniqueEdges_sublist es es' :
  sublist es' es → isUniqueEdges es = true → isUniqueEdges es' = true.
Proof.
  rewrite !isUniqueEdges_NoDup. intros Hsub Hnodup.
  apply (sublist_NoDup (edge_key <$> es') (edge_key <$> es));
    [exact Hnodup|by apply fmap_sublist].
Qed.

(** ** The traversal *)

(** X4. Traversing a concatenated input is traversing its first part and
    then, from the state reached, its second part; a dead end in the first
    part is a dead end of the whole. *)
Theorem traverse_app es s1 s2 : ∀ q,
  traverse es q (String.append s1 s2) =
  match traverse es q s1 with
  | Some q1 => traverse es q1 s2
  | None => None
  end.
Proof.
  induction s1 as [|c rest IH]; intros q; simpl; [done|].
  destruct (find _ es); [apply IH|done].
Qed.

Lemma walk_Permutation es es' q input q' :
  es ≡ₚ es' → walk es q input q' → walk es' q input q'.
Proof.
  intros Hperm Hwalk. induction Hwalk as [|q c rest e q' He Hf Hl _ IH].
  - constructor.
  - apply (walk_cons es' q c rest e q'); try done. by rewrite <- Hperm.
Qed.

(** X5. On a deterministic collection the traversal does not depend on
    the order of the transitions: any reordering reaches the same state,
    or the same dead end. *)
Theorem traverse_Permutation es es' q input :
  isUniqueEdges es = true → es ≡ₚ es' →
  traverse es q input = traverse es' q input.
Proof.
  intros Huniq Hperm.
  assert (isUniqueEdges es' = true) as Huniq'
    by (apply isUniqueEdges_NoDup; rewrite <- Hperm; by apply isUniqueEdges_NoDup).
  destruct (traverse es q input) as [q1|] eqn:H1.
  - apply traverse_walk, (walk_Permutation es es') in H1; [|done].
    symmetry. by apply walk_traverse.
  - destruct (traverse es' q input) as [q2|] eqn:H2; [|done].
    apply traverse_walk, (walk_Permutation es' es) in H2; [|done].
    apply (walk_traverse es q input q2 Huniq) in H2. congruence.
Qed.

Lemma isUniqueEdges_Permutation_witness :
  isUniqueEdges (rev demo_edges) = isUniqueEdges demo_edges.
Proof.
  apply (isUniqueEdges_Permutation (rev demo_edges) demo_edges).
  symmetry. apply Permutation_rev.
Defined.

Lemma isUniqueEdges_sublist_witness :
  isUniqueEdges (tail demo_edges) = true.
Proof.
  apply (isUniqueEdges_sublist demo_edges (tail demo_edges)).
  - simpl. apply sublist_cons. reflexivity.
  - reflexivity.
Defined.

Lemma traverse_Permutation_witness :
  traverse demo_edges "1" "ab" = traverse (rev demo_edges) "1" "ab".
Proof.
  apply (traverse_Permutation demo_edges (rev demo_edges) "1" "ab").
  - reflexivity.
  - apply Permutation_rev.
Defined.

(** ** The normal form of the array after the scan *)

Lemma kept_cons_true r R : needs_expansion r = true → kept (r :: R) = kept R.
Proof. intros H. unfold kept. simpl. by rewrite H. Qed.

Lemma kept_cons_false r R :
  needs_expansion r = false → kept (r :: R) = r :: kept R.
Proof. intros H. unfold kept. simpl. by rewrite H. Qed.

Lemma kept_all es :
  Forall (λ e, needs_expansion e = false) es → kept es = es.
Proof.
  induction 1 as [|e es He _ IH]; [done|].
  by rewrite kept_cons_false, IH.
Qed.

Lemma settled_unexpanded es :
  Forall settled es → Forall (λ e, needs_expansion e = false) es.
Proof. intros H. eapply Forall_impl; [exact H|]. by intros e [He _]. Qed.

Section NormalFormFacts.

Variable uuid : nat → string.

Lemma expansions_none k es :
  Forall (λ e, needs_expansion e = false) es → expansions uuid k es = [].
Proof.
  induction 1 as [|e es He _ IH]; [done|]. simpl. by rewrite He.
Qed.

Lemma expansion_draws_none es :
  Forall (λ e, needs_expansion e = false) es → expansion_draws es = 0.
Proof.
  induction 1 as [|e es He _ IH]; [done|]. simpl. by rewrite He.
Qed.

Lemma expansions_unexpanded k es :
  Forall (λ e, needs_expansion e = false) (expansions uuid k es).
Proof.
  revert k. induction es as [|e es IH]; intros k; simpl; [constructor|].
  destruct (needs_expansion e); [|apply IH].
  apply Forall_app. split; [|apply IH].
  apply settled_unexpanded, chains_settled, split_comma_comma_free.
Qed.

(** What the scan computes from slot [i] on, whatever the labels: [P] are
    the slots already passed, [R] the originals still to be scanned, [N]
    the transitions appended so far. *)
Lemma preProcess_scan_normal_form fuel a n : ∀ i w P R N,
  edges_at w a = P ++ R ++ N →
  length P = i →
  Forall (λ e, needs_expansion e = false) N →
  i + length R ≤ n →
  (n - i) + length R ≤ fuel →
  ∃ w',
    preProcess_scan uuid fuel a n i w =
      ((if n <=? length (P ++ kept R ++ N ++ expansions uuid (uuid_next w) R)
        then Return tt else Throw property_of_undefined), w') ∧
    edges_at w' a = P ++ kept R ++ N ++ expansions uuid (uuid_next w) R ∧
    uuid_next w' = uuid_next w + expansion_draws R ∧
    same_but a w w'.
Proof.
  assert (∀ i w P N, edges_at w a = P ++ [] ++ N → length P = i → n ≤ i →
    ∀ f, ∃ w',
      preProcess_scan uuid f a n i w =
        ((if n <=? length (P ++ kept [] ++ N ++ expansions uuid (uuid_next w) [])
          then Return tt else Throw property_of_undefined), w') ∧
      edges_at w' a = P ++ kept [] ++ N ++ expansions uuid (uuid_next w) [] ∧
      uuid_next w' = uuid_next w + expansion_draws [] ∧
      same_but a w w') as Hdone.
  { intros i w P N Harr HP Hi f. exists w. rewrite scan_done by done.
    simpl. rewrite app_nil_r, Nat.add_0_r.
    destruct (Nat.leb_spec n (length (P ++ N))) as [_|Hlt].
    - repeat split; try done.
    - rewrite length_app in Hlt. lia. }
  induction fuel as [|fuel IH]; intros i w P R N Harr HP HN Hbound Hfuel.
  { assert (R = []) as -> by (destruct R; simpl in *; [done|lia]).
    apply Hdone; [done|done|simpl in *; lia]. }
  destruct (decide (i < n)) as [Hi|Hi].
  2: { assert (R = []) as -> by (destruct R; simpl in *; [done|lia]).
       apply Hdone; [done|done|lia]. }
  destruct R as [|r R'].
  - destruct N as [|x N'].
    + exists w. rewrite (scan_undefined uuid fuel a n i w Hi).
      2: { rewrite Harr. apply lookup_ge_None. simpl. rewrite app_nil_r. lia. }
      simpl. rewrite app_nil_r, Nat.add_0_r.
      destruct (Nat.leb_spec n (length P)) as [Hle|_]; [lia|].
      simpl in Harr. rewrite app_nil_r in Harr. repeat split; done.
    + apply Forall_cons in HN as [Hx HN'].
      assert (edges_at w a !! i = Some x) as Hslot.
      { rewrite Harr. simpl. by apply list_lookup_middle. }
      rewrite (scan_advance uuid fuel a n i w x) by done.
      rewrite Nat.add_1_r.
      destruct (IH (S i) w (P ++ [x]) [] N') as (w' & Hrun & Hfinal & Hk & Hsame).
      * rewrite Harr. simpl. by rewrite <- app_assoc.
      * rewrite length_app. simpl. lia.
      * done.
      * simpl. lia.
      * simpl in *. lia.
      * assert ((P ++ [x]) ++ kept [] ++ N' ++ expansions uuid (uuid_next w) []
                = P ++ kept [] ++ (x :: N') ++ expansions uuid (uuid_next w) [])
          as Heq by (simpl; by rewrite <- app_assoc).
        rewrite Heq in Hrun, Hfinal. eauto.
  - assert (edges_at w a !! i = Some r) as Hslot.
    { rewrite Harr. simpl. by apply list_lookup_middle. }
    destruct (needs_expansion r) eqn:Hneed.
    + destruct (expand_run uuid a i r w) as (w1 & Hexp & Hsame1 & Harr1 & Hk1).
      rewrite (scan_expand uuid fuel a n i w r w1) by done.
      set (pieces := split_comma (edge_label r)) in *.
      set (new := concat (chains uuid (uuid_next w) r pieces)) in *.
      destruct (IH i w1 P R' (N ++ new)) as (w' & Hrun & Hfinal & Hk & Hsame).
      * rewrite Harr1, Harr. simpl.
        replace ((P ++ r :: R' ++ N) ++ new) with (P ++ r :: (R' ++ N ++ new))
          by (rewrite <- app_assoc; simpl; by rewrite <- app_assoc).
        rewrite <- HP. by rewrite delete_middle.
      * done.
      * apply Forall_app. split; [done|].
        apply settled_unexpanded, chains_settled, split_comma_comma_free.
      * simpl in *. lia.
      * simpl in *. lia.
      * assert (P ++ kept R' ++ (N ++ new) ++ expansions uuid (uuid_next w1) R'
                = P ++ kept (r :: R') ++ N ++ expansions uuid (uuid_next w) (r :: R'))
          as Heq.
        { rewrite kept_cons_true by done. simpl. rewrite Hneed, Hk1.
          fold pieces. fold new. by rewrite <- !app_assoc. }
        rewrite Heq in Hrun, Hfinal. exists w'.
        split; [done|]. split; [done|]. split.
        -- rewrite Hk, Hk1. simpl. rewrite Hneed. fold pieces. lia.
        -- by eapply same_but_trans.
    + rewrite (scan_advance uuid fuel a n i w r) by done.
      rewrite Nat.add_1_r.
      destruct (IH (S i) w (P ++ [r]) R' N) as (w' & Hrun & Hfinal & Hk & Hsame).
      * rewrite Harr. simpl. by rewrite <- app_assoc.
      * rewrite length_app. simpl. lia.
      * done.
      * simpl in *. lia.
      * simpl in *. lia.
      * assert ((P ++ [r]) ++ kept R' ++ N ++ expansions uuid (uuid_next w) R'
                = P ++ kept (r :: R') ++ N ++ expansions uuid (uuid_next w) (r :: R'))
          as Heq.
        { rewrite kept_cons_false by done. simpl. rewrite Hneed.
          by rewrite <- app_assoc. }
        rewrite Heq in Hrun, Hfinal. exists w'.
        split; [done|]. split; [done|]. split; [|done].
        rewrite Hk. simpl. by rewrite Hneed.
Qed.

End NormalFormFacts.

(** ** preProcess and computeDFA on arbitrary labels *)

Section Outcomes.

Variable uuid : nat → string.

Lemma chains_length e pieces : ∀ k,
  length (concat (chains uuid k e pieces)) = pieces_size pieces.
Proof.
  induction pieces as [|piece later IH]; intros k; [done|].
  simpl. by rewrite length_app, chain_length, IH.
Qed.

Lemma expansions_length es : ∀ k,
  length (expansions uuid k es) = expansion_size es.
Proof.
  induction es as [|e later IH]; intros k; [done|]. simpl.
  destruct (needs_expansion e); [|apply IH].
  by rewrite length_app, chains_length, IH.
Qed.

Lemma preProcess_result fuel nodes edges w :
  2 * length (edges_at w edges) ≤ fuel →
  ∃ w',
    preProcess uuid fuel nodes edges w =
      ((if length (edges_at w edges)
            <=? length (kept (edges_at w edges)) + expansion_size (edges_at w edges)
        then Return tt else Throw property_of_undefined), w') ∧
    edges_at w' edges =
      kept (edges_at w edges) ++ expansions uuid (uuid_next w) (edges_at w edges) ∧
    uuid_next w' = uuid_next w + expansion_draws (edges_at w edges) ∧
    same_but edges w w'.
Proof.
  intros Hfuel. unfold preProcess. run.
  destruct (preProcess_scan_normal_form uuid fuel edges (length (edges_at w edges))
              0 w [] (edges_at w edges) [])
    as (w' & Hrun & Hfinal & Hk & Hsame); try done.
  - by rewrite app_nil_r.
  - lia.
  - simpl in Hrun, Hfinal. rewrite length_app, expansions_length in Hrun.
    exists w'. done.
Qed.

(** X6. Whatever the labels, [preProcess] run with fuel for twice the
    number of transitions ends with the array holding the transitions it
    left in place, in their original order, followed by the appended
    chains in the order of the transitions they come from; it has drawn
    [expansion_draws] identifiers and written to no other location. It
    returns when the array is then at least as long as it was at the
    start, and otherwise throws at the first slot past its end. *)
Theorem preProcess_normal_form fuel nodes edges w :
  2 * length (edges_at w edges) ≤ fuel →
  ∃ w',
    preProcess uuid fuel nodes edges w =
      ((if length (edges_at w edges)
            <=? length (kept (edges_at w edges)) + expansion_size (edges_at w edges)
        then Return tt else Throw property_of_undefined), w') ∧
    edges_at w' edges =
      kept (edges_at w edges) ++ expansions uuid (uuid_next w) (edges_at w edges) ∧
    uuid_next w' = uuid_next w + expansion_draws (edges_at w edges) ∧
    same_but edges w w'.
Proof.
  intros Hfuel. unfold preProcess. run.
  destruct (preProcess_scan_normal_form uuid fuel edges (length (edges_at w edges))
              0 w [] (edges_at w edges) [])
    as (w' & Hrun & Hfinal & Hk & Hsame); try done.
  - by rewrite app_nil_r.
  - lia.
  - simpl in Hrun, Hfinal. rewrite length_app, expansions_length in Hrun.
    exists w'. done.
Qed.

Lemma computeDFA_run fuel input dataNodes dataEdges w :
  let nodes := fresh (dom (node_store w)) in
  let edges := fresh (dom (edge_store w)) in
  let w2 := write_edges edges (edges_at w dataEdges)
              (write_nodes nodes (nodes_at w dataNodes) w) in
  computeDFA uuid fuel input (object (DataSet dataNodes) (DataSet dataEdges)) w =
  match preProcess uuid fuel nodes edges w2 with
  | (Return _, w3) =>
      (Return (verdict (nodes_at w3 nodes) (edges_at w3 edges) input), w3)
  | (Throw e, w3) => (Throw e, w3)
  | (OutOfFuel, w3) => (OutOfFuel, w3)
  end.
Proof.
  intros nodes edges w2. unfold computeDFA. simpl. run.
  fold nodes edges. change (write_edges edges _ _) with w2.
  destruct (preProcess uuid fuel nodes edges w2) as [[[]|e|] w3]; simpl; try done.
  unfold verdict.
  destruct (isValidDFA _ _); simpl; [|done].
  destruct (traverse _ _ _); [|done].
  by destruct (find _ _).
Qed.

Lemma computeDFA_result fuel input data w :
  isAutomataData data = Return true →
  2 * length (graph_edges w data) ≤ fuel →
  fst (computeDFA uuid fuel input data w) =
    if length (graph_edges w data)
         <=? length (kept (graph_edges w data)) + expansion_size (graph_edges w data)
    then Return (verdict (graph_nodes w data)
                   (kept (graph_edges w data)
                      ++ expansions uuid (uuid_next w) (graph_edges w data))
                   input)
    else Throw property_of_undefined.
Proof.
  intros Hshape Hfuel.
  apply isAutomataData_true in Hshape as (dn & de & ->).
  rewrite computeDFA_run. unfold graph_edges, graph_nodes in *. simpl in *.
  set (a := fresh (dom (node_store w))).
  set (b := fresh (dom (edge_store w))).
  set (w2 := write_edges b _ _).
  assert (edges_at w2 b = edges_at w de) as Hcopy
    by (subst w2; by rewrite edges_at_write).
  destruct (preProcess_result fuel a b w2) as (w3 & Hrun & Hfinal & _ & Hsame).
  { by rewrite Hcopy. }
  rewrite Hrun, Hcopy. rewrite Hcopy in Hfinal.
  destruct (length (edges_at w de) <=? _); simpl; [|done].
  rewrite Hfinal. f_equal. f_equal.
  destruct Hsame as [Hnodes _]. unfold nodes_at. rewrite Hnodes.
  subst w2. simpl. by rewrite lookup_insert_eq.
Qed.

(** X7. For a value that passes the shape check, with fuel for twice the
    number of transitions: [computeDFA] throws the undefined-slot
    [TypeError] when the transitions left in place and the characters of
    the trimmed sub-labels of the expanded ones are together fewer than
    the transitions of the graph, and otherwise returns the verdict read
    off the caller's nodes and the normal form of the caller's edges. *)
Theorem computeDFA_outcome fuel input data w :
  isAutomataData data = Return true →
  2 * length (graph_edges w data) ≤ fuel →
  fst (computeDFA uuid fuel input data w) =
    if length (graph_edges w data)
         <=? length (kept (graph_edges w data)) + expansion_size (graph_edges w data)
    then Return (verdict (graph_nodes w data)
                   (kept (graph_edges w data)
                      ++ expansions uuid (uuid_next w) (graph_edges w data))
                   input)
    else Throw property_of_undefined.
Proof.
  intros Hshape Hfuel.
  apply isAutomataData_true in Hshape as (dn & de & ->).
  rewrite computeDFA_run. unfold graph_edges, graph_nodes in *. simpl in *.
  set (a := fresh (dom (node_store w))).
  set (b := fresh (dom (edge_store w))).
  set (w2 := write_edges b _ _).
  assert (edges_at w2 b = edges_at w de) as Hcopy
    by (subst w2; by rewrite edges_at_write).
  destruct (preProcess_result fuel a b w2) as (w3 & Hrun & Hfinal & _ & Hsame).
  { by rewrite Hcopy. }
  rewrite Hrun, Hcopy. rewrite Hcopy in Hfinal.
  destruct (length (edges_at w de) <=? _); simpl; [|done].
  rewrite Hfinal. f_equal. f_equal.
  destruct Hsame as [Hnodes _]. unfold nodes_at. rewrite Hnodes.
  subst w2. simpl. by rewrite lookup_insert_eq.
Qed.

(** X8. With fuel for twice the number of transitions of the graph,
    [computeDFA] never runs out of fuel, whatever value it is handed and
    whatever the labels: the call returns a verdict or throws. *)
Theorem computeDFA_terminates fuel input data w :
  2 * length (graph_edges w data) ≤ fuel →
  (∃ v, fst (computeDFA uuid fuel input data w) = Return v) ∨
  (∃ e, fst (computeDFA uuid fuel input data w) = Throw e).
Proof.
  intros Hfuel.
  destruct (isAutomataData data) as [[|]|e|] eqn:Hshape.
  - rewrite (computeDFA_result fuel input data w Hshape Hfuel).
    destruct (length (graph_edges w data) <=? _); eauto.
  - right. exists only_accepts_Dataset. unfold computeDFA. run. by rewrite Hshape.
  - right. exists e. unfold computeDFA. run. by rewrite Hshape.
  - destruct data as [|nodes edges]; simpl in Hshape; [done|].
    by destruct (has_key nodes && has_key edges),
                (instanceof_DataSet nodes && instanceof_DataSet edges).
Qed.

(** X9. A graph in which no transition needs expansion is its own normal
    form: [computeDFA] returns the verdict read off the caller's nodes
    and edges as they are, whatever identifiers the generator would
    deliver. *)
Theorem computeDFA_on_normalised_graph fuel input data w :
  isAutomataData data = Return true →
  Forall (λ e, needs_expansion e = false) (graph_edges w data) →
  2 * length (graph_edges w data) ≤ fuel →
  fst (computeDFA uuid fuel input data w)
  = Return (verdict (graph_nodes w data) (graph_edges w data) input).
Proof.
  intros Hshape Hnone Hfuel.
  rewrite (computeDFA_result fuel input data w Hshape Hfuel).
  rewrite (kept_all _ Hnone), (expansions_none uuid _ _ Hnone), app_nil_r.
  destruct (Nat.leb_spec (length (graph_edges w data))
              (length (graph_edges w data) + expansion_size (graph_edges w data)));
    [done|lia].
Qed.

(** X10. Normalising twice is normalising once: when every sub-label is
    non-empty after trimming, a second run of [preProcess] on the array
    returns, leaves the array as the first run left it and draws no
    identifier. *)
Theorem preProcess_idempotent fuel fuel' nodes edges w w1 :
  Forall (λ e, sub_labels_nonempty e = true) (edges_at w edges) →
  2 * length (edges_at w edges) ≤ fuel →
  preProcess uuid fuel nodes edges w = (Return tt, w1) →
  2 * length (edges_at w1 edges) ≤ fuel' →
  ∃ w2, preProcess uuid fuel' nodes edges w1 = (Return tt, w2) ∧
        edges_at w2 edges = edges_at w1 edges ∧
        uuid_next w2 = uuid_next w1.
Proof.
  intros Hne Hfuel Hrun1 Hfuel'.
  destruct (preProcess_settles uuid fuel nodes edges w Hne Hfuel)
    as (w1' & Hrun1' & Hset).
  rewrite Hrun1 in Hrun1'. injection Hrun1' as <-.
  apply settled_unexpanded in Hset.
  destruct (preProcess_result fuel' nodes edges w1 Hfuel')
    as (w2 & Hrun2 & Hfinal & Hk & _).
  rewrite (kept_all _ Hset), (expansions_none uuid _ _ Hset), app_nil_r in Hfinal.
  rewrite (kept_all _ Hset) in Hrun2.
  rewrite (expansion_draws_none _ Hset), Nat.add_0_r in Hk.
  exists w2. split; [|done].
  rewrite Hrun2.
  destruct (Nat.leb_spec (length (edges_at w1 edges))
              (length (edges_at w1 edges) + expansion_size (edges_at w1 edges)));
    [done|lia].
Qed.

End Outcomes.

(** ** Reading a verdict backwards *)

Lemma find_none_no_final ns q : find (accepts_at q) ns = None → no_final ns q.
Proof.
  intros Hfind n Hn Hacc. apply list_elem_of_In in Hn.
  pose proof (find_none _ _ Hfind n Hn) as Hno.
  apply accepts_at_spec in Hacc. congruence.
Qed.

Lemma verdict_invalid ns es input :
  verdict ns es input = DfaResponse false None None ↔ clash es.
Proof.
  rewrite <- isUniqueEdges_clash. unfold verdict, isValidDFA.
  destruct (isUniqueEdges es); simpl; [|done].
  split; [|done].
  destruct (traverse es "1" input) as [q|]; [|done].
  by destruct (find (accepts_at q) ns).
Qed.

Lemma verdict_accepted ns es input L :
  verdict ns es input = DfaResponse true (Some true) (Some L) ↔
  ¬ clash es ∧
  ∃ q n, walk es "1" input q ∧ first_final ns q n ∧ node_label n = L.
Proof.
  rewrite <- isUniqueEdges_no_clash. unfold verdict, isValidDFA.
  destruct (isUniqueEdges es) eqn:Huniq; simpl.
  2: { split; [done|]. by intros [? _]. }
  split.
  - destruct (traverse es "1" input) as [q|] eqn:Htrav; [|done].
    destruct (find (accepts_at q) ns) as [n|] eqn:Hfind; [|done].
    simpl. intros [= <-]. split; [done|]. exists q, n.
    split; [by apply traverse_walk|]. split; [by apply find_accepting_first|done].
  - intros (_ & q & n & Hwalk & Hfirst & <-).
    rewrite (walk_traverse es "1" input q Huniq Hwalk).
    by rewrite (find_first_final ns q n Hfirst).
Qed.

Lemma verdict_rejected ns es input :
  verdict ns es input = DfaResponse true (Some false) None ↔
  ¬ clash es ∧ ∀ q, walk es "1" input q → no_final ns q.
Proof.
  rewrite <- isUniqueEdges_no_clash. unfold verdict, isValidDFA.
  destruct (isUniqueEdges es) eqn:Huniq; simpl.
  2: { split; [done|]. by intros [? _]. }
  destruct (traverse es "1" input) as [q|] eqn:Htrav.
  - destruct (find (accepts_at q) ns) as [n|] eqn:Hfind; simpl.
    + split; [done|]. intros [_ Hno]. exfalso.
      apply traverse_walk in Htrav. apply find_some in Hfind as [Hin Hacc].
      apply (Hno q Htrav n); [by apply list_elem_of_In|by apply accepts_at_spec].
    + split; [|done]. intros _. split; [done|]. intros q' Hwalk.
      apply (walk_traverse es "1" input q' Huniq) in Hwalk.
      assert (q' = q) as -> by congruence. by apply find_none_no_final.
  - split; [|done]. intros _. split; [done|]. intros q' Hwalk.
    apply (walk_traverse es "1" input q' Huniq) in Hwalk. congruence.
Qed.

Section Inversion.

Variable uuid : nat → string.

(** X11. The three verdicts, read backwards, for a graph that passes the
    shape check and whose normalisation returned: [{valid: false}] means
    two normalised transitions share source and label; an accepting
    verdict with label [L] means the input walks from "1" to a state whose
    first final node in the caller's collection is labelled [L];
    [{valid: true, accepted: false}] means the transitions are
    deterministic and no full walk of the input ends in a state with a
    final node. *)
Theorem computeDFA_verdict_inversion fuel input data w ns es :
  isAutomataData data = Return true →
  normalized uuid fuel data w = Some (ns, es) →
  (fst (computeDFA uuid fuel input data w) = Return (DfaResponse false None None)
   ↔ clash es) ∧
  (∀ L, fst (computeDFA uuid fuel input data w)
        = Return (DfaResponse true (Some true) (Some L))
   ↔ ¬ clash es ∧
     ∃ q n, walk es "1" input q ∧ first_final ns q n ∧ node_label n = L) ∧
  (fst (computeDFA uuid fuel input data w)
     = Return (DfaResponse true (Some false) None)
   ↔ ¬ clash es ∧ ∀ q, walk es "1" input q → no_final ns q).
Proof.
  intros Hshape Hnorm.
  assert (fst (computeDFA uuid fuel input data w) = Return (verdict ns es input))
    as -> by exact (computeDFA_normalized uuid fuel input data w ns es Hshape Hnorm).
  split; [|split].
  - rewrite <- verdict_invalid. split; [by intros [= ->]|by intros ->].
  - intros L. rewrite <- verdict_accepted. split; [by intros [= ->]|by intros ->].
  - rewrite <- verdict_rejected. split; [by intros [= ->]|by intros ->].
Qed.

End Inversion.

(** ** What normalisation does to the language of a transition *)

Lemma trim_single c :
  trim (String c EmptyString) =
  if is_white_space c then EmptyString else String c EmptyString.
Proof. unfold trim. simpl. destruct (is_white_space c) eqn:H; simpl; by rewrite ?H. Qed.

Lemma walk_weaken es es' q input q' :
  (∀ x, x ∈ es → x ∈ es') → walk es q input q' → walk es' q input q'.
Proof.
  intros Hsub Hwalk. induction Hwalk as [|q c rest e q' He Hf Hl _ IH].
  - constructor.
  - apply (walk_cons es' q c rest e q'); auto.
Qed.

Section Language.

Variable uuid : nat → string.

Lemma walk_chain s : ∀ k p t,
  s ≠ EmptyString → walk (chain uuid k p t s) p s t.
Proof.
  induction s as [|c rest IH]; intros k p t Hs; [done|].
  destruct rest as [|c' rest'].
  - simpl. eapply walk_cons; [apply list_elem_of_here|done|done|constructor].
  - rewrite chain_cons.
    eapply walk_cons; [apply list_elem_of_here|done|done|]. simpl.
    eapply walk_weaken; [|by apply IH]. intros x Hx. by apply list_elem_of_further.
Qed.

Lemma chains_sublist e pieces piece : ∀ k,
  piece ∈ pieces →
  ∃ k', chain uuid k' (edge_from e) (edge_to e) (trim piece)
          `sublist_of` concat (chains uuid k e pieces).
Proof.
  induction pieces as [|p later IH]; intros k Hin; [by apply not_elem_of_nil in Hin|].
  apply elem_of_cons in Hin as [->|Hin]; simpl.
  - exists k. by apply sublist_inserts_r.
  - destruct (IH (k + draws (trim p)) Hin) as [k' Hk'].
    exists k'. by apply sublist_inserts_l.
Qed.

Lemma expansions_sublist es e : ∀ k,
  e ∈ es → needs_expansion e = true →
  ∃ k', concat (chains uuid k' e (split_comma (edge_label e)))
          `sublist_of` expansions uuid k es.
Proof.
  induction es as [|x later IH]; intros k Hin Hneed; [by apply not_elem_of_nil in Hin|].
  apply elem_of_cons in Hin as [<-|Hin]; simpl.
  - rewrite Hneed. exists k. by apply sublist_inserts_r.
  - destruct (needs_expansion x).
    + destruct (IH (k + all_draws (split_comma (edge_label x))) Hin Hneed) as [k' Hk'].
      exists k'. by apply sublist_inserts_l.
    + by apply IH.
Qed.

Lemma kept_elem_of es e :
  e ∈ es → needs_expansion e = false → e ∈ kept es.
Proof.
  intros Hin Hneed. unfold kept. apply list_elem_of_In, filter_In.
  split; [by apply list_elem_of_In|by rewrite Hneed].
Qed.

(** X13. When every sub-label is non-empty after trimming, the array
    [preProcess] leaves spells every sub-label of every original
    transition: for a transition from [p] to [t] and each of its
    sub-labels [s], reading the characters of the trimmed [s] from [p]
    along the normalised transitions ends in [t]. *)
Theorem preProcess_realises_sub_labels fuel nodes edges w :
  Forall (λ e, sub_labels_nonempty e = true) (edges_at w edges) →
  2 * length (edges_at w edges) ≤ fuel →
  ∃ w', preProcess uuid fuel nodes edges w = (Return tt, w') ∧
    ∀ e piece,
      e ∈ edges_at w edges → piece ∈ split_comma (edge_label e) →
      walk (edges_at w' edges) (edge_from e) (trim piece) (edge_to e).
Proof.
  intros Hne Hfuel.
  destruct (preProcess_settles uuid fuel nodes edges w Hne Hfuel) as (w' & Hrun & _).
  destruct (preProcess_result uuid fuel nodes edges w Hfuel) as (w'' & Hrun' & Hfinal & _).
  rewrite Hrun in Hrun'. assert (w'' = w') as -> by congruence. clear Hrun'.
  exists w'. split; [done|]. intros e piece He Hpiece.
  rewrite Forall_forall in Hne. pose proof (Hne e He) as Hlabels.
  assert (trim piece ≠ EmptyString) as Hpiece_ne.
  { apply sub_labels_nonempty_spec in Hlabels. rewrite Forall_forall in Hlabels. auto. }
  rewrite Hfinal. destruct (needs_expansion e) eqn:Hneed.
  - destruct (expansions_sublist (edges_at w edges) e (uuid_next w) He Hneed)
      as [k' Hk'].
    destruct (chains_sublist e (split_comma (edge_label e)) piece k' Hpiece)
      as [k'' Hk''].
    eapply walk_weaken; [|by apply (walk_chain (trim piece) k'')].
    intros x Hx. apply elem_of_app. right.
    eapply elem_of_sublist; [|exact Hk']. eapply elem_of_sublist; [exact Hx|exact Hk''].
  - destruct (unexpanded_settled e Hneed Hlabels) as [_ Hlen].
    destruct (edge_label e) as [|c [|c' rest]] eqn:Hlabel; simpl in Hlen; try done.
    assert (piece = String c EmptyString) as ->.
    { unfold needs_expansion in Hneed. rewrite Hlabel in Hneed.
      simpl in Hpiece, Hneed. destruct (Ascii.eqb c ","); [done|].
      by apply list_elem_of_singleton in Hpiece. }
    rewrite trim_single in Hpiece_ne |- *.
    destruct (is_white_space c); [done|].
    eapply walk_cons; [|done|exact Hlabel|constructor].
    apply elem_of_app. left. by apply kept_elem_of.
Qed.

Lemma chains_app e A B : ∀ k,
  chains uuid k e (A ++ B) = chains uuid k e A ++ chains uuid (k + all_draws A) e B.
Proof.
  induction A as [|p A IH]; intros k; simpl.
  - by rewrite Nat.add_0_r.
  - rewrite IH. by rewrite Nat.add_assoc.
Qed.

Lemma chain_first_key s c k p t :
  first_char s = Some c →
  ∃ x xs, chain uuid k p t s = x :: xs ∧ edge_key x = (p, String c EmptyString).
Proof.
  destruct s as [|c0 [|c1 rest]]; simpl; [done| |]; intros [= <-]; eauto.
Qed.

(** Two sub-labels of one transition that start with the same character
    give two chains that start with the same source and label. *)
Lemma chains_shared_first_character e pieces i j p1 p2 c k :
  pieces !! i = Some p1 → pieces !! j = Some p2 → i < j →
  first_char (trim p1) = Some c → first_char (trim p2) = Some c →
  ¬ NoDup (edge_key <$> concat (chains uuid k e pieces)).
Proof.
  intros Hi Hj Hij Hc1 Hc2.
  rewrite <- (take_drop_middle pieces i p1 Hi).
  assert (drop (S i) pieces !! (j - S i) = Some p2) as Hj'.
  { rewrite lookup_drop. by replace (S i + (j - S i)) with j by lia. }
  rewrite <- (take_drop_middle (drop (S i) pieces) (j - S i) p2 Hj').
  set (A := take i pieces). set (B := take (j - S i) (drop (S i) pieces)).
  set (C := drop (S (j - S i)) (drop (S i) pieces)).
  rewrite chains_app. simpl. rewrite chains_app. simpl.
  destruct (chain_first_key (trim p1) c (k + all_draws A) (edge_from e) (edge_to e) Hc1)
    as (x & xs & -> & Hx).
  destruct (chain_first_key (trim p2) c
              (k + all_draws A + draws (trim p1) + all_draws B)
              (edge_from e) (edge_to e) Hc2)
    as (y & ys & -> & Hy).
  rewrite !concat_app. simpl. rewrite !concat_app. simpl.
  rewrite !fmap_app. simpl. rewrite !fmap_app. simpl.
  intros Hnodup.
  apply NoDup_app in Hnodup as (_ & _ & Hnodup).
  apply NoDup_cons in Hnodup as [Hnotin _].
  apply Hnotin. rewrite Hx, <- Hy.
  apply elem_of_app. right. apply elem_of_app. right. apply list_elem_of_here.
Qed.

(** X14. A transition with two sub-labels that start with the same
    character (as in "a,a" or "ab,ac") makes the graph invalid: when
    every sub-label of the graph is non-empty after trimming, the verdict
    is [{valid: false}] for every input. *)
Theorem computeDFA_invalid_on_shared_first_character
    fuel data w e i j p1 p2 c :
  isAutomataData data = Return true →
  Forall (λ e, sub_labels_nonempty e = true) (graph_edges w data) →
  2 * length (graph_edges w data) ≤ fuel →
  e ∈ graph_edges w data →
  split_comma (edge_label e) !! i = Some p1 →
  split_comma (edge_label e) !! j = Some p2 →
  i ≠ j →
  first_char (trim p1) = Some c →
  first_char (trim p2) = Some c →
  ∀ input,
    fst (computeDFA uuid fuel input data w) = Return (DfaResponse false None None).
Proof.
  intros Hshape Hne Hfuel He Hi Hj Hij Hc1 Hc2 input.
  destruct (normalized_defined uuid fuel data w Hshape Hne Hfuel)
    as (ns & es & Hnorm & _).
  pose proof (computeDFA_normalized uuid fuel input data w ns es Hshape Hnorm) as Hrun.
  pose proof (computeDFA_result uuid fuel input data w Hshape Hfuel) as Hres.
  destruct (length (graph_edges w data) <=? _); [|by rewrite Hrun in Hres].
  clear Hrun.
  assert (needs_expansion e = true) as Hneed.
  { unfold needs_expansion. apply orb_true_iff. left. apply Nat.ltb_lt.
    apply lookup_lt_Some in Hi, Hj. lia. }
  assert (isUniqueEdges
            (kept (graph_edges w data)
               ++ expansions uuid (uuid_next w) (graph_edges w data)) = false)
    as Hinvalid.
  { destruct (isUniqueEdges _) eqn:Huniq; [|done]. exfalso.
    apply isUniqueEdges_NoDup in Huniq.
    destruct (expansions_sublist (graph_edges w data) e (uuid_next w) He Hneed)
      as [k' Hk'].
    assert (NoDup (edge_key <$>
              concat (chains uuid k' e (split_comma (edge_label e))))) as Hseg.
    { eapply sublist_NoDup; [exact Huniq|].
      apply fmap_sublist. by apply sublist_inserts_l. }
    revert Hseg.
    destruct (decide (i < j)).
    - by apply (chains_shared_first_character e _ i j p1 p2 c k').
    - apply (chains_shared_first_character e _ j i p2 p1 c k'); (done || lia). }
  rewrite Hres. unfold verdict, isValidDFA. by rewrite Hinvalid.
Qed.

End Language.

(** ** What the verdict depends on *)

Lemma arcs_cons_inv e (es es' : list edge) :
  edge_arc <$> (e :: es) = edge_arc <$> es' →
  ∃ e' es'', es' = e' :: es'' ∧
    edge_from e = edge_from e' ∧ edge_label e = edge_label e' ∧
    edge_to e = edge_to e' ∧ edge_arc <$> es = edge_arc <$> es''.
Proof.
  destruct es' as [|e' es'']; [done|]. simpl. unfold edge_arc at 1 3.
  intros [= Hf Hl Ht Hrest]. by exists e', es''.
Qed.

Lemma needs_expansion_label e e' :
  edge_label e = edge_label e' → needs_expansion e = needs_expansion e'.
Proof. unfold needs_expansion. by intros ->. Qed.

Lemma arcs_keys (es : list edge) : ∀ es' : list edge,
  edge_arc <$> es = edge_arc <$> es' →
  (λ e, (edge_from e, edge_label e)) <$> es
  = (λ e, (edge_from e, edge_label e)) <$> es'.
Proof.
  induction es as [|e es IH]; intros es' Harcs.
  - by destruct es'.
  - apply arcs_cons_inv in Harcs as (e' & es'' & -> & Hf & Hl & _ & Hrest).
    rewrite !fmap_cons. by rewrite Hf, Hl, (IH es'' Hrest).
Qed.

Lemma kept_arcs (es : list edge) : ∀ es' : list edge,
  edge_arc <$> es = edge_arc <$> es' →
  edge_arc <$> kept es = edge_arc <$> kept es'.
Proof.
  induction es as [|e es IH]; intros es' Harcs.
  - by destruct es'.
  - apply arcs_cons_inv in Harcs as (e' & es'' & -> & Hf & Hl & Ht & Hrest).
    pose proof (needs_expansion_label e e' Hl) as Hneed.
    destruct (needs_expansion e) eqn:He.
    + rewrite kept_cons_true, (kept_cons_true e') by congruence. by apply IH.
    + rewrite kept_cons_false, (kept_cons_false e') by congruence.
      rewrite !fmap_cons. unfold edge_arc at 1 3. by rewrite Hf, Hl, Ht, (IH es'' Hrest).
Qed.

Lemma expansion_size_arcs (es : list edge) : ∀ es' : list edge,
  edge_arc <$> es = edge_arc <$> es' → expansion_size es = expansion_size es'.
Proof.
  induction es as [|e es IH]; intros es' Harcs.
  - by destruct es'.
  - apply arcs_cons_inv in Harcs as (e' & es'' & -> & Hf & Hl & Ht & Hrest).
    simpl. rewrite <- (needs_expansion_label e e' Hl), <- Hl.
    by rewrite (IH es'' Hrest).
Qed.

Lemma expansion_draws_arcs (es : list edge) : ∀ es' : list edge,
  edge_arc <$> es = edge_arc <$> es' → expansion_draws es = expansion_draws es'.
Proof.
  induction es as [|e es IH]; intros es' Harcs.
  - by destruct es'.
  - apply arcs_cons_inv in Harcs as (e' & es'' & -> & Hf & Hl & Ht & Hrest).
    simpl. rewrite <- (needs_expansion_label e e' Hl), <- Hl.
    by rewrite (IH es'' Hrest).
Qed.

Lemma find_leaves_on_arcs q c (es : list edge) : ∀ es' : list edge,
  edge_arc <$> es = edge_arc <$> es' →
  edge_to <$> find (leaves_on q c) es = edge_to <$> find (leaves_on q c) es'.
Proof.
  induction es as [|e es IH]; intros es' Harcs.
  - by destruct es'.
  - apply arcs_cons_inv in Harcs as (e' & es'' & -> & Hf & Hl & Ht & Hrest).
    simpl. unfold leaves_on at 1 3. rewrite <- Hf, <- Hl.
    destruct (_ && _); simpl; [by rewrite Ht|]. by apply IH.
Qed.

Lemma traverse_arcs (es es' : list edge) input : ∀ q,
  edge_arc <$> es = edge_arc <$> es' →
  traverse es q input = traverse es' q input.
Proof.
  induction input as [|c rest IH]; intros q Harcs; [done|]. simpl.
  pose proof (find_leaves_on_arcs q c es es' Harcs) as Hfind.
  destruct (find _ es) as [e|], (find _ es') as [e'|]; simpl in Hfind; try done.
  injection Hfind as ->. by apply IH.
Qed.

Lemma verdict_arcs ns (es es' : list edge) input :
  edge_arc <$> es = edge_arc <$> es' →
  verdict ns es input = verdict ns es' input.
Proof.
  intros Harcs. unfold verdict, isValidDFA.
  rewrite (isUniqueEdges_sources_labels es es' (arcs_keys es es' Harcs)).
  by rewrite (traverse_arcs es es' input "1" Harcs).
Qed.

Section Dependence.

Variable uuid : nat → string.

Lemma chains_ends e e' pieces k :
  edge_from e = edge_from e' → edge_to e = edge_to e' →
  chains uuid k e pieces = chains uuid k e' pieces.
Proof.
  intros Hf Ht. revert k. induction pieces as [|p later IH]; intros k; [done|].
  simpl. by rewrite Hf, Ht, IH.
Qed.

Lemma expansions_arcs (es : list edge) : ∀ (es' : list edge) k,
  edge_arc <$> es = edge_arc <$> es' →
  expansions uuid k es = expansions uuid k es'.
Proof.
  induction es as [|e es IH]; intros es' k Harcs.
  - by destruct es'.
  - apply arcs_cons_inv in Harcs as (e' & es'' & -> & Hf & Hl & Ht & Hrest).
    simpl. rewrite <- (needs_expansion_label e e' Hl), <- Hl.
    rewrite (chains_ends e e' _ k Hf Ht).
    destruct (needs_expansion e); by rewrite (IH es'' _ Hrest).
Qed.

(** X15. The outcome of [computeDFA] depends on the transitions only
    through their source, label and destination, taken in order: two
    graphs that pass the shape check, with the same nodes and transitions
    that agree on these three fields, give the same verdict or the same
    exception when the generator stands at the same draw, wherever the
    collections are stored and whatever the transitions' ids. *)
Theorem computeDFA_reads_arcs_only fuel input data data' w w' :
  isAutomataData data = Return true →
  isAutomataData data' = Return true →
  graph_nodes w data = graph_nodes w' data' →
  edge_arc <$> graph_edges w data = edge_arc <$> graph_edges w' data' →
  uuid_next w = uuid_next w' →
  2 * length (graph_edges w data) ≤ fuel →
  fst (computeDFA uuid fuel input data w)
  = fst (computeDFA uuid fuel input data' w').
Proof.
  intros Hshape Hshape' Hnodes Harcs Hk Hfuel.
  assert (length (graph_edges w data) = length (graph_edges w' data')) as Hlen.
  { apply (f_equal length) in Harcs. by rewrite !length_fmap in Harcs. }
  rewrite (computeDFA_result uuid fuel input data w Hshape Hfuel).
  rewrite (computeDFA_result uuid fuel input data' w' Hshape') by lia.
  assert (length (kept (graph_edges w data))
          = length (kept (graph_edges w' data'))) as Hkept.
  { pose proof (kept_arcs _ _ Harcs) as H.
    apply (f_equal length) in H. by rewrite !length_fmap in H. }
  rewrite Hlen, Hkept, (expansion_size_arcs _ _ Harcs), Hnodes, Hk.
  destruct (_ <=? _); [|done]. f_equal.
  apply verdict_arcs. rewrite !fmap_app.
  by rewrite (kept_arcs _ _ Harcs), (expansions_arcs _ _ _ Harcs).
Qed.

(** X16. A call on a value that passes the shape check draws, whatever
    its outcome, [2 L - 1] identifiers for each non-empty trimmed
    sub-label of length [L] of each expanded transition ([L] for the new
    transitions, [L - 1] for the link points) and none otherwise. *)
Theorem computeDFA_draws fuel input data w :
  isAutomataData data = Return true →
  2 * length (graph_edges w data) ≤ fuel →
  uuid_next (snd (computeDFA uuid fuel input data w))
  = uuid_next w + expansion_draws (graph_edges w data) ∧
  (∀ s, draws s = 2 * String.length s - 1) ∧
  (∀ es, Forall (λ e, needs_expansion e = false) es → expansion_draws es = 0).
Proof.
  intros Hshape Hfuel. split; [|split].
  - apply isAutomataData_true in Hshape as (dn & de & ->).
    rewrite computeDFA_run. unfold graph_edges in *. simpl in *.
    set (a := fresh (dom (node_store w))).
    set (b := fresh (dom (edge_store w))).
    set (w2 := write_edges b _ _).
    assert (edges_at w2 b = edges_at w de) as Hcopy
      by (subst w2; by rewrite edges_at_write).
    destruct (preProcess_result uuid fuel a b w2) as (w3 & Hrun & _ & Hdraws & _).
    { by rewrite Hcopy. }
    rewrite Hrun, Hcopy. rewrite Hcopy in Hdraws.
    by destruct (length (edges_at w de) <=? _).
  - intros [|c rest]; simpl; lia.
  - apply expansion_draws_none.
Qed.

End Dependence.

(** * The further properties on concrete graphs *)

(** A transition labelled "," is dropped without replacement; beside a
    transition that expands to two, the array is long enough for the scan
    to return, and the graph has silently lost a transition. *)
Example comma_transition_is_dropped :
  normalized demo_uuid 4 demo_data comma_ab_world
  = Some (demo_nodes,
          [Edge "uuid-0" "1" "uuid-1" "a"; Edge "uuid-2" "uuid-1" "2" "b"]).
Proof. vm_compute. reflexivity. Qed.

(** A label of one white-space character is left in place and matches
    that character of the input. *)
Example space_label_is_kept :
  fst (computeDFA demo_uuid 2 " " demo_data
         (World {[ 1%positive := demo_nodes ]}
                {[ 1%positive := [Edge "e1" "1" "2" " "] ]} 0))
  = Return (DfaResponse true (Some true) (Some "end")).
Proof. vm_compute. reflexivity. Qed.

Lemma preProcess_normal_form_witness :
  ∃ w', edges_at w' 1%positive = demo_edges ∧ uuid_next w' = 4.
Proof.
  destruct (preProcess_normal_form demo_uuid 2 1%positive 1%positive demo_world)
    as (w' & _ & Hfinal & Hdraws & _).
  - change (edges_at demo_world 1%positive) with [demo_edge]. simpl. lia.
  - exists w'. split.
    + rewrite Hfinal. vm_compute. reflexivity.
    + rewrite Hdraws. vm_compute. reflexivity.
Defined.

Lemma computeDFA_outcome_witness :
  fst (computeDFA demo_uuid 2 "a" demo_data comma_world)
  = Throw property_of_undefined.
Proof.
  etrans.
  - apply (computeDFA_outcome demo_uuid 2 "a" demo_data comma_world).
    + reflexivity.
    + vm_compute. lia.
  - vm_compute. reflexivity.
Defined.

Lemma computeDFA_terminates_witness :
  (∃ v, fst (computeDFA demo_uuid 2 "a" demo_data comma_world) = Return v) ∨
  (∃ e, fst (computeDFA demo_uuid 2 "a" demo_data comma_world) = Throw e).
Proof.
  apply (computeDFA_terminates demo_uuid 2 "a" demo_data comma_world).
  vm_compute. lia.
Defined.

Lemma computeDFA_on_normalised_graph_witness :
  fst (computeDFA demo_uuid 2 "aa" demo_data loop_world)
  = Return (DfaResponse true (Some true) (Some "start")).
Proof.
  etrans.
  - apply (computeDFA_on_normalised_graph demo_uuid 2 "aa" demo_data loop_world).
    + reflexivity.
    + change (graph_edges loop_world demo_data) with loop_edges.
      constructor; [reflexivity|constructor].
    + vm_compute. lia.
  - vm_compute. reflexivity.
Defined.

Lemma preProcess_idempotent_witness :
  ∃ w2, edges_at w2 1%positive = demo_edges.
Proof.
  destruct (preProcess_idempotent demo_uuid 2 6 1%positive 1%positive demo_world
              (snd (preProcess demo_uuid 2 1%positive 1%positive demo_world)))
    as (w2 & _ & Harr & _).
  - change (edges_at demo_world 1%positive) with [demo_edge].
    constructor; [reflexivity|constructor].
  - vm_compute. lia.
  - vm_compute. reflexivity.
  - vm_compute. lia.
  - exists w2. rewrite Harr. vm_compute. reflexivity.
Defined.

Lemma computeDFA_verdict_inversion_witness :
  ∃ q n, walk demo_edges "1" "ab" q ∧ first_final demo_nodes q n ∧
         node_label n = "end"%string.
Proof.
  refine (proj2 (proj1 (proj1 (proj2
    (computeDFA_verdict_inversion demo_uuid 2 "ab" demo_data demo_world
       demo_nodes demo_edges _ _)) "end"%string) _)).
  - reflexivity.
  - vm_compute. reflexivity.
  - vm_compute. reflexivity.
Defined.

Lemma preProcess_realises_sub_labels_witness :
  ∃ w', walk (edges_at w' 1%positive) "1" "ab" "2" ∧
        walk (edges_at w' 1%positive) "1" "c" "2".
Proof.
  destruct (preProcess_realises_sub_labels demo_uuid 2 1%positive 1%positive demo_world)
    as (w' & _ & Hwalks).
  - change (edges_at demo_world 1%positive) with [demo_edge].
    constructor; [reflexivity|constructor].
  - vm_compute. lia.
  - exists w'. split.
    + apply (Hwalks demo_edge "ab"%string).
      * change (edges_at demo_world 1%positive) with [demo_edge].
        apply list_elem_of_here.
      * change (split_comma (edge_label demo_edge)) with ["ab"; " c"]%string.
        apply list_elem_of_here.
    + apply (Hwalks demo_edge " c"%string).
      * change (edges_at demo_world 1%positive) with [demo_edge].
        apply list_elem_of_here.
      * change (split_comma (edge_label demo_edge)) with ["ab"; " c"]%string.
        apply list_elem_of_further, list_elem_of_here.
Defined.

Lemma computeDFA_invalid_on_shared_first_character_witness :
  fst (computeDFA demo_uuid 2 "a" demo_data aa_world)
  = Return (DfaResponse false None None).
Proof.
  apply (computeDFA_invalid_on_shared_first_character demo_uuid 2 demo_data aa_world
           aa_edge 0 1 "a"%string "a"%string "a"%char).
  - reflexivity.
  - change (graph_edges aa_world demo_data) with [aa_edge].
    constructor; [reflexivity|constructor].
  - vm_compute. lia.
  - change (graph_edges aa_world demo_data) with [aa_edge]. apply list_elem_of_here.
  - reflexivity.
  - reflexivity.
  - lia.
  - reflexivity.
  - reflexivity.
Defined.

Lemma computeDFA_reads_arcs_only_witness :
  fst (computeDFA demo_uuid 2 "ab" demo_data demo_world)
  = fst (computeDFA demo_uuid 2 "ab" moved_data moved_world).
Proof.
  apply (computeDFA_reads_arcs_only demo_uuid 2 "ab" demo_data moved_data
           demo_world moved_world).
  - reflexivity.
  - reflexivity.
  - vm_compute. reflexivity.
  - vm_compute. reflexivity.
  - reflexivity.
  - vm_compute. lia.
Defined.

Lemma computeDFA_draws_witness :
  uuid_next (snd (computeDFA demo_uuid 2 "ab" demo_data demo_world)) = 4.
Proof.
  etrans.
  - apply (computeDFA_draws demo_uuid 2 "ab" demo_data demo_world).
    + reflexivity.
    + vm_compute. lia.
  - vm_compute. reflexivity.
Defined.

(** * Normalisation of one transition, and the fields of a verdict *)

Lemma verdict_fields ns es input :
  let v := verdict ns es input in
  (valid v = false → accepted v = None ∧ acceptedNodeLabel v = None) ∧
  (valid v = true → is_Some (accepted v)) ∧
  (accepted v = Some false → acceptedNodeLabel v = None) ∧
  (accepted v = Some true →
     valid v = true ∧ ∃ n, n ∈ ns ∧ truthy (node_final n) = true) ∧
  (∀ L, acceptedNodeLabel v = Some L →
     valid v = true ∧ accepted v = Some true ∧
     ∃ n, n ∈ ns ∧ truthy (node_final n) = true ∧ node_label n = L).
Proof.
  unfold verdict. destruct (isValidDFA ns es); simpl.
  2: { repeat split; done. }
  destruct (traverse es "1" input) as [q|]; simpl.
  2: { repeat split; (done || eauto). }
  destruct (find (accepts_at q) ns) as [n|] eqn:Hfind; simpl.
  2: { repeat split; (done || eauto). }
  apply find_some in Hfind as [Hin Hacc].
  apply accepts_at_spec in Hacc as [_ Hfin]. apply list_elem_of_In in Hin.
  split; [done|]. split; [eauto|]. split; [done|]. split.
  - intros _. split; [done|]. by exists n.
  - intros L [= <-]. split; [done|]. split; [done|]. by exists n.
Qed.

Section Revisited.

Variable uuid : nat → string.

Lemma expansions_app A : ∀ B k,
  expansions uuid k (A ++ B)
  = expansions uuid k A ++ expansions uuid (k + expansion_draws A) B.
Proof.
  induction A as [|x A IH]; intros B k; simpl.
  - by rewrite Nat.add_0_r.
  - destruct (needs_expansion x).
    + rewrite IH, <- app_assoc. by rewrite Nat.add_assoc.
    + apply IH.
Qed.

Lemma expansion_draws_app A B :
  expansion_draws (A ++ B) = expansion_draws A + expansion_draws B.
Proof.
  induction A as [|x A IH]; simpl; [done|].
  destruct (needs_expansion x); lia.
Qed.

Lemma kept_unexpanded es : Forall (λ e, needs_expansion e = false) (kept es).
Proof.
  apply Forall_forall. intros x Hx. unfold kept in Hx.
  apply list_elem_of_In, filter_In in Hx as [_ Hx]. by apply negb_true_iff.
Qed.

(** C2. Let [e] be a transition of the array handed to [preProcess] that
    needs expansion and whose comma-separated sub-labels are all non-empty
    after trimming. When [preProcess] is done (fuel for twice the number
    of transitions; it returns when every transition of the graph has
    non-empty sub-labels) the array holds the transitions left in place,
    then the chains of the transitions that stood before [e], then one
    chain per sub-label of [e], in order, then the chains of the
    transitions that stood after [e]; [e] itself is no longer in the
    array. The chain of a sub-label of trimmed length L has L transitions,
    the k-th labelled with the k-th character; the first leaves the source
    of [e], the last enters its destination, consecutive ones share their
    link point. The link points are identifiers drawn during this call, no
    draw used twice (pairwise different when the generator never repeats
    itself), and the node store is untouched: no node is made for them. *)
Theorem preProcess_replaces_edge_by_chains fuel nodes edges w i e :
  edges_at w edges !! i = Some e →
  needs_expansion e = true →
  sub_labels_nonempty e = true →
  2 * length (edges_at w edges) ≤ fuel →
  ∃ cs js,
    edges_at (snd (preProcess uuid fuel nodes edges w)) edges =
      kept (edges_at w edges)
        ++ expansions uuid (uuid_next w) (take i (edges_at w edges))
        ++ concat cs
        ++ expansions uuid
             (uuid_next w + expansion_draws (take i (edges_at w edges))
                + all_draws (split_comma (edge_label e)))
             (drop (S i) (edges_at w edges)) ∧
    (e ∉ edges_at (snd (preProcess uuid fuel nodes edges w)) edges) ∧
    Forall2 (is_chain e) (trim <$> split_comma (edge_label e)) cs ∧
    concat (intermediates <$> cs) = uuid <$> js ∧
    NoDup js ∧
    Forall (λ j, uuid_next w ≤ j
                 < uuid_next (snd (preProcess uuid fuel nodes edges w))) js ∧
    ((∀ j j', uuid j = uuid j' → j = j') →
       NoDup (concat (intermediates <$> cs))) ∧
    node_store (snd (preProcess uuid fuel nodes edges w)) = node_store w ∧
    (∀ l, l ≠ edges →
       edge_store (snd (preProcess uuid fuel nodes edges w)) !! l
       = edge_store w !! l) ∧
    (Forall (λ x, sub_labels_nonempty x = true) (edges_at w edges) →
       fst (preProcess uuid fuel nodes edges w) = Return tt).
Proof.
  intros Hslot Hneed Hne Hfuel.
  destruct (preProcess_result uuid fuel nodes edges w Hfuel)
    as (w' & Hrun & Hfinal & Hdraws & [Hnodes Hothers]).
  rewrite Hrun. simpl.
  set (es := edges_at w edges) in *.
  set (pieces := split_comma (edge_label e)) in *.
  set (k1 := uuid_next w + expansion_draws (take i es)).
  assert (es = take i es ++ e :: drop (S i) es) as Hsplit
    by (symmetry; by apply take_drop_middle).
  assert (expansions uuid (uuid_next w) es
          = expansions uuid (uuid_next w) (take i es)
              ++ concat (chains uuid k1 e pieces)
              ++ expansions uuid (k1 + all_draws pieces) (drop (S i) es)) as Hexp.
  { rewrite Hsplit at 1. rewrite expansions_app. simpl. by rewrite Hneed. }
  assert (expansion_draws es
          = expansion_draws (take i es) + all_draws pieces
              + expansion_draws (drop (S i) es)) as Hcount.
  { rewrite Hsplit at 1. rewrite expansion_draws_app. simpl. rewrite Hneed.
    fold pieces. lia. }
  exists (chains uuid k1 e pieces), (all_link_draws k1 pieces).
  split; [|split; [|split; [|split; [|split; [|split; [|split; [|split; [|split]]]]]]]].
  - by rewrite Hfinal, Hexp.
  - rewrite Hfinal. intros Hin.
    assert (Forall (λ x, needs_expansion x = false)
              (kept es ++ expansions uuid (uuid_next w) es)) as Hall.
    { apply Forall_app. split; [apply kept_unexpanded|apply expansions_unexpanded]. }
    rewrite Forall_forall in Hall. apply Hall in Hin. congruence.
  - apply chains_are_chains. by apply sub_labels_nonempty_spec.
  - apply chains_intermediates.
  - apply all_link_draws_NoDup.
  - eapply Forall_impl; [apply all_link_draws_bounds|].
    simpl. intros j Hj. rewrite Hdraws, Hcount. subst k1. lia.
  - intros Hinj. rewrite chains_intermediates.
    assert (Inj (=) (=) uuid) by exact Hinj.
    apply (NoDup_fmap_2 uuid), all_link_draws_NoDup.
  - done.
  - done.
  - intros Hall.
    destruct (preProcess_settles uuid fuel nodes edges w Hall Hfuel)
      as (w'' & Hrun' & _).
    rewrite Hrun in Hrun'. by injection Hrun' as ->.
Qed.

(** X12. The fields of a returned verdict, whatever value, input and
    store [computeDFA] is called with: with [valid] false nothing else is
    present; with [valid] true [accepted] is present; with [accepted]
    false no label is present; [accepted] is true only on a valid graph
    whose caller's collection has a node with a truthy final flag; and a
    label is present only with [valid] and [accepted] true, and is then
    the label of such a node. *)
Theorem computeDFA_verdict_fields fuel input data w v :
  fst (computeDFA uuid fuel input data w) = Return v →
  (valid v = false → accepted v = None ∧ acceptedNodeLabel v = None) ∧
  (valid v = true → is_Some (accepted v)) ∧
  (accepted v = Some false → acceptedNodeLabel v = None) ∧
  (accepted v = Some true →
     valid v = true ∧
     ∃ n, n ∈ graph_nodes w data ∧ truthy (node_final n) = true) ∧
  (∀ L, acceptedNodeLabel v = Some L →
     valid v = true ∧ accepted v = Some true ∧
     ∃ n, n ∈ graph_nodes w data ∧ truthy (node_final n) = true ∧
          node_label n = L).
Proof.
  destruct data as [|[| |dn] [| |de]]; try done.
  rewrite computeDFA_run. unfold graph_nodes. simpl.
  set (a := fresh (dom (node_store w))).
  set (b := fresh (dom (edge_store w))).
  set (w2 := write_edges b _ _).
  pose proof (preProcess_frame uuid fuel a b w2) as [[Hnodes _] _].
  destruct (preProcess uuid fuel a b w2) as [[[]|e|] w3]; simpl in *; try done.
  intros [= <-].
  assert (nodes_at w3 a = nodes_at w dn) as ->.
  { unfold nodes_at. rewrite Hnodes. subst w2. simpl. by rewrite lookup_insert_eq. }
  apply verdict_fields.
Qed.

End Revisited.

Lemma preProcess_replaces_edge_by_chains_witness :
  ∃ cs,
    edges_at (snd (preProcess demo_uuid 2 1%positive 1%positive demo_world)) 1%positive
      = concat cs ∧
    (demo_edge ∉
       edges_at (snd (preProcess demo_uuid 2 1%positive 1%positive demo_world))
         1%positive) ∧
    Forall2 (is_chain demo_edge) ["ab"; "c"]%string cs.
Proof.
  destruct (preProcess_replaces_edge_by_chains demo_uuid 2 1%positive 1%positive
              demo_world 0 demo_edge)
    as (cs & js & Harr & Hgone & Hchains & _).
  - vm_compute. reflexivity.
  - reflexivity.
  - reflexivity.
  - vm_compute. lia.
  - exists cs. split; [|split; [exact Hgone|exact Hchains]].
    rewrite Harr.
    change (edges_at demo_world 1%positive) with [demo_edge].
    simpl. apply app_nil_r.
Defined.

Lemma computeDFA_verdict_fields_witness :
  ∃ n, n ∈ graph_nodes demo_world demo_data ∧ truthy (node_final n) = true ∧
       node_label n = "end"%string.
Proof.
  destruct (computeDFA_verdict_fields demo_uuid 2 "ab" demo_data demo_world
              (DfaResponse true (Some true) (Some "end"%string)))
    as (_ & _ & _ & _ & Hlabel).
  - vm_compute. reflexivity.
  - destruct (Hlabel "end"%string eq_refl) as (_ & _ & Hnode). exact Hnode.
Defined.
